(** * The Redis client of [main.py]: model and verified properties

    [RedisClient] loads attribute records and leaderboard scores into a
    Redis database and answers queries over it.  The development embeds
    - the Python string primitives the loaders use ([str.strip],
      [str.split], [int]),
    - the Redis commands the client issues ([HSET], [HGETALL], [HGET],
      [ZADD], [ZREVRANGE], [SCAN] with a pattern), on one key space that
      holds hashes and sorted sets,
    - the methods of [RedisClient], each a [try]/[except] around a body
      that may raise, written in a state-and-exception monad whose log is
      write-only,
    and proves the properties of the loaders and of the queries.  The
    connection is taken to be up while data is loaded and queried: a
    command then fails only where Redis refuses it for what it is given
    (a key of the wrong type, a score that is no double).  [FLUSHDB],
    which no data makes fail, takes the error it may raise as an input. *)

From Stdlib Require Import ZArith Ascii String List Lia.
From stdpp Require Import gmap strings list fin_maps sorting.

Local Open Scope Z_scope.

(** ** Python strings

    A [str] is modelled as a [string] whose characters are the code points
    below 256. *)

Module Py.

(** [str.isspace] on one character: the ASCII white space, the four
    separators 0x1c-0x1f, NEL and the no-break space. *)
Definition isspace (c : ascii) : bool :=
  match c with
  | "009" | "010" | "011" | "012" | "013"
  | "028" | "029" | "030" | "031" | " " | "133" | "160" => true
  | _ => false
  end%char.

(** Drop the leading characters that satisfy [p]. *)
Fixpoint lstrip (p : ascii → bool) (s : string) : string :=
  match s with
  | "" => ""
  | String c s' => if p c then lstrip p s' else s
  end.

(** Drop the trailing characters that satisfy [p]. *)
Fixpoint rstrip (p : ascii → bool) (s : string) : string :=
  match s with
  | "" => ""
  | String c s' =>
      match rstrip p s' with
      | "" => if p c then "" else String c ""
      | r => String c r
      end
  end.

(** [s.strip()] *)
Definition strip (s : string) : string := rstrip isspace (lstrip isspace s).

(** [s.strip(chars)] *)
Definition strip_chars (chars : string) (s : string) : string :=
  let p c := bool_decide (c ∈ list_ascii_of_string chars) in
  rstrip p (lstrip p s).

(** [sep] is a prefix of [s]. *)
Fixpoint startswith (sep s : string) : bool :=
  match sep, s with
  | "", _ => true
  | String a sep', String b s' => bool_decide (a = b) && startswith sep' s'
  | String _ _, "" => false
  end.

(** [s.split(sep)] for a non-empty [sep]: the occurrences of [sep] are
    found from the left and do not overlap.  [skip] counts the characters
    of a separator still to pass over, [cur] is the current piece,
    reversed. *)
Fixpoint split_go (sep : string) (skip : nat) (cur : string) (s : string)
  : list string :=
  match s with
  | "" => [String.rev cur]
  | String c s' =>
      match skip with
      | S k => split_go sep k cur s'
      | O =>
          if startswith sep s
          then String.rev cur :: split_go sep (String.length sep - 1) "" s'
          else split_go sep 0 (String c cur) s'
      end
  end.

Definition split (sep s : string) : list string := split_go sep 0 "" s.

(** The value of a decimal digit: the code points 48 to 57. *)
Definition digit (c : ascii) : option Z :=
  let code := Z.of_N (N_of_ascii c) in
  if (48 <=? code) && (code <=? 57) then Some (code - 48) else None.

(** Digits with single underscores between them; [after_digit] tells
    whether the previous character was a digit. *)
Fixpoint int_digits (acc : Z) (after_digit : bool) (s : string) : option Z :=
  match s with
  | "" => if after_digit then Some acc else None
  | String c s' =>
      if bool_decide (c = "_"%char)
      then (if after_digit then int_digits acc false s' else None)
      else match digit c with
           | Some d => int_digits (10 * acc + d) true s'
           | None => None
           end
  end.

(** The white space [int] skips around a literal: the ASCII white space,
    NEL and the no-break space.  Unlike [str.strip] it does not skip the
    separators 0x1c-0x1f. *)
Definition int_space (c : ascii) : bool :=
  match c with
  | "009" | "010" | "011" | "012" | "013" | " " | "133" | "160" => true
  | _ => false
  end%char.

(** How many decimal digits a literal holds. *)
Fixpoint count_digits (s : string) : nat :=
  match s with
  | "" => O
  | String c s' =>
      match digit c with
      | Some _ => S (count_digits s')
      | None => count_digits s'
      end
  end.

(** The interpreter's default limit on the digits of a decimal literal. *)
Definition max_str_digits : nat := 4300.

Definition int_literal (r : string) : option Z :=
  if (max_str_digits <? count_digits r)%nat then None
  else int_digits 0 false r.

(** [int(s)]: white space around, an optional sign, then the digits, at
    most [max_str_digits] of them.  [None] stands for [ValueError]. *)
Definition int (s : string) : option Z :=
  match rstrip int_space (lstrip int_space s) with
  | String "-" r => Z.opp <$> int_literal r
  | String "+" r => int_literal r
  | r => int_literal r
  end.

(** [range(start, stop, step)] for a positive step, as the list of its
    values; [fuel] bounds the number of values. *)
Fixpoint range_go (fuel : nat) (start stop step : nat) : list nat :=
  match fuel with
  | O => []
  | S fuel' =>
      if (start <? stop)%nat
      then start :: range_go fuel' (start + step) stop step
      else []
  end.

Definition range (start stop step : nat) : list nat :=
  range_go stop start stop step.

End Py.

(** The double quote, and the delimiter [" "] of the attribute file. *)
Definition dquote : ascii := "034"%char.
Definition delimiter : string := String dquote (String " " (String dquote "")).

(** A line of the attribute file written from its tokens: each token in
    double quotes, the tokens separated by one space, a newline at the end. *)
Definition quoted (t : string) : string := String dquote (t +:+ String dquote "").
Fixpoint join (sep : string) (ts : list string) : string :=
  match ts with
  | [] => ""
  | [t] => t
  | t :: ts' => t +:+ sep +:+ join sep ts'
  end.
Definition attribute_line (tokens : list string) : string :=
  join " " (quoted <$> tokens) +:+ String "010" "".

(** ** The Redis key space

    One key space; a key holds a hash (field to value) or a sorted set
    (member to score).  Redis holds a score as a double.  The loader only
    ever writes integers, and the double nearest to an integer is an
    integer, so a score is kept here as the integer value of its double;
    the doubles compare as these integers do. *)

Inductive value :=
| Hash (fields : gmap string string)
| ZSet (scores : gmap string Z).

Abbreviation database := (gmap string value).

(** What a call can raise. *)
Inductive exn :=
| OSError                       (* [open] failed *)
| StopIteration                 (* [next] on an exhausted reader *)
| ValueError (literal : string) (* [int], [float] on a bad literal *)
| IndexError                    (* subscript out of range *)
| DataError                     (* redis-py: a write with an empty mapping *)
| WRONGTYPE                     (* the key holds the other kind of value *)
| NotAnInteger                  (* an index outside the signed 64-bit range *)
| NotAFloat                     (* a score outside the range of the doubles *)
| Refused (error : string).     (* the server did not carry out the command *)

Module Redis.

(** [HSET name field value [field value ...]]: sets the given fields and
    keeps every other field of the hash. *)
Definition hset (name : string) (mapping : gmap string string)
    (db : database) : exn + database :=
  if decide (mapping = ∅) then inl DataError
  else match db !! name with
       | None => inr (<[name := Hash mapping]> db)
       | Some (Hash h) => inr (<[name := Hash (mapping ∪ h)]> db)
       | Some (ZSet _) => inl WRONGTYPE
       end.

(** [HGETALL name]: the empty mapping for a missing key. *)
Definition hgetall (name : string) (db : database)
    : exn + gmap string string :=
  match db !! name with
  | None => inr ∅
  | Some (Hash h) => inr h
  | Some (ZSet _) => inl WRONGTYPE
  end.

(** [HGET name key]: [None] for a missing key or field. *)
Definition hget (name key : string) (db : database) : exn + option string :=
  match db !! name with
  | None => inr None
  | Some (Hash h) => inr (h !! key)
  | Some (ZSet _) => inl WRONGTYPE
  end.

(** The score the server holds for an integer sent as its decimal digits:
    the double nearest to it, a tie going to the even significand of 53
    bits, and [None] when that is beyond the largest double.  [e] is the
    number of low bits that do not fit the significand, [q] the bits that
    do and [r] the bits cut off. *)
Definition double (n : Z) : option Z :=
  let a := Z.abs n in
  let e := Z.max 0 (Z.log2 a - 52) in
  let q := Z.shiftr a e in
  let r := Z.land a (Z.ones e) in
  let half := Z.shiftl 1 (e - 1) in
  let up := (0 <? e) && ((half <? r) || ((half =? r) && Z.odd q)) in
  let v := Z.shiftl (if up then q + 1 else q) e in
  if 2 ^ 1024 <=? v then None else Some (Z.sgn n * v).

(** The scores of a mapping as the server holds them, [None] when it
    refuses one of them. *)
Definition doubles (mapping : gmap string Z) : option (gmap string Z) :=
  list_to_map
    <$> mapM (λ entry, pair entry.1 <$> double entry.2) (map_to_list mapping).

(** [ZADD name score member [score member ...]]: sets the score of each
    given member and keeps the other members.  The client refuses an empty
    mapping; the server reads every score before it looks at the key. *)
Definition zadd (name : string) (mapping : gmap string Z)
    (db : database) : exn + database :=
  if decide (mapping = ∅) then inl DataError
  else match doubles mapping with
       | None => inl NotAFloat
       | Some scores =>
           match db !! name with
           | None => inr (<[name := ZSet scores]> db)
           | Some (ZSet z) => inr (<[name := ZSet (scores ∪ z)]> db)
           | Some (Hash _) => inl WRONGTYPE
           end
       end.

(** The order of [ZREVRANGE]: higher score first, and among equal scores
    the lexicographically greater member first. *)
Definition zrev_le (a b : string * Z) : Prop :=
  b.2 < a.2 ∨ (a.2 = b.2 ∧ (b.1 ≤ a.1)%string).

#[global] Instance zrev_le_dec : RelDecision zrev_le.
Proof. intros a b. unfold zrev_le. apply _. Defined.

(** The elements of ranks [start] to [stop], both included; a negative
    index counts from the end. *)
Definition by_rank {A} (start stop : Z) (l : list A) : list A :=
  let llen := Z.of_nat (length l) in
  let start := if start <? 0 then llen + start else start in
  let stop := if stop <? 0 then llen + stop else stop in
  let start := if start <? 0 then 0 else start in
  if (stop <? start) || (llen <=? start) then []
  else
    let stop := if llen <=? stop then llen - 1 else stop in
    take (Z.to_nat (stop - start + 1)) (drop (Z.to_nat start) l).

Definition int64 (n : Z) : bool := (- 2 ^ 63 <=? n) && (n <? 2 ^ 63).

(** [ZREVRANGE name start stop]: members only. *)
Definition zrevrange (name : string) (start stop : Z) (db : database)
    : exn + list string :=
  if negb (int64 start && int64 stop) then inl NotAnInteger
  else match db !! name with
       | None => inr []
       | Some (ZSet z) =>
           inr (by_rank start stop (merge_sort zrev_le (map_to_list z))).*1
       | Some (Hash _) => inl WRONGTYPE
       end.


(** A glob pattern made of literal characters and [*]. *)
Fixpoint glob (pattern : string) : string → bool :=
  match pattern with
  | "" => λ s, bool_decide (s = "")
  | String "*" p =>
      fix star (s : string) : bool :=
        glob p s || match s with "" => false | String _ s' => star s' end
  | String c p =>
      λ s, match s with
           | "" => false
           | String c' s' => bool_decide (c = c') && glob p s'
           end
  end.

(** The keys that match a pattern, in the order of the key space. *)
Definition matching (pattern : string) (db : database) : list string :=
  filter (λ k, glob pattern k = true) (map_to_list db).*1.

(** [SCAN] with [MATCH pattern], run to the end on a key space that
    does not change meanwhile: every key that matches.  Each key is taken
    to come once; the server may repeat one while it resizes its table,
    which the model leaves out. *)
Definition scan_iter (pattern : string) (db : database)
    : exn + list string :=
  inr (matching pattern db).

End Redis.

(** ** Methods: state, exceptions and a write-only log *)

Inductive log_entry :=
| INFO (msg : string)
| WARNING_line (msg line : string)            (* the message, then the line *)
| WARNING_row (msg : string) (row : list string)
| ERROR (msg : string) (e : exn).             (* the message, then the exception *)

(** What running a piece of code gives: its result, the database it leaves
    and the entries it logged. *)
Record outcome (A : Type) := Outcome {
  returned : A;
  store : database;
  logged : list log_entry
}.
Arguments Outcome {A} _ _ _.
Arguments returned {A} _.
Arguments store {A} _.
Arguments logged {A} _.

(** Code that may raise: [inl e] is the exception [e] leaving the code. *)
Definition action (A : Type) : Type := database → outcome (exn + A).

(** A method of the client: it always returns. *)
Definition method (A : Type) : Type := database → outcome A.

#[global] Instance action_ret : MRet action :=
  λ A a db, Outcome (inr a) db [].

#[global] Instance action_bind : MBind action :=
  λ A B f m db,
    let o := m db in
    match returned o with
    | inl e => Outcome (inl e) (store o) (logged o)
    | inr a =>
        let o' := f a (store o) in
        Outcome (returned o') (store o') (logged o ++ logged o')
    end.

Definition raise {A} (e : exn) : action A := λ db, Outcome (inl e) db [].

Definition logger (entry : log_entry) : action () :=
  λ db, Outcome (inr ()) db [entry].

(** A Redis command that reads. *)
Definition query {A} (cmd : database → exn + A) : action A :=
  λ db, Outcome (cmd db) db [].

(** A Redis command that writes; a command that fails writes nothing. *)
Definition command (cmd : database → exn + database) : action () :=
  λ db, match cmd db with
        | inl e => Outcome (inl e) db []
        | inr db' => Outcome (inr ()) db' []
        end.

(** [for x in xs: acc = body(acc, x)]: the loop stops at the first
    exception. *)
Fixpoint for_each {A X} (body : A → X → action A) (acc : A) (xs : list X)
    : action A :=
  match xs with
  | [] => mret acc
  | x :: xs' => acc' ← body acc x; for_each body acc' xs'
  end.

(** [try: body  except Exception as e: handler(e)] *)
Definition try_except {A} (body : action A) (handler : exn → method A)
    : method A :=
  λ db,
    let o := body db in
    match returned o with
    | inr a => Outcome a (store o) (logged o)
    | inl e =>
        let o' := handler e (store o) in
        Outcome (returned o') (store o') (logged o ++ logged o')
    end.

(** The handler of every method: log the error, return the default. *)
Definition log_and_return {A} (msg : string) (default : A) (e : exn)
    : method A :=
  λ db, Outcome default db [ERROR msg e].

(** ** [RedisClient] *)

(** [with open(file_path, 'r') as file]: the lines (or rows) of the file,
    [None] when it cannot be opened. *)
Definition open {X} (file : option (list X)) : action (list X) :=
  match file with
  | Some xs => mret xs
  | None => raise OSError
  end.

(** The tokens of a line: [line.strip()] split on the delimiter, each piece
    stripped of the double quotes at its ends. *)
Definition fields_of (line : string) : list string :=
  Py.strip_chars (String dquote "") <$> Py.split delimiter (Py.strip line).

(** [{fields[i]: fields[i+1] for i in range(1, len(fields)-1, 2)}]: the
    pairs are entered from left to right, a later one replacing an earlier
    one with the same key. *)
Definition user_data_of (fields : list string) : gmap string string :=
  foldl (λ d i, <[fields !!! i := fields !!! S i]> d) ∅
        (Py.range 1 (length fields - 1) 2).

(** The body of the loop of [load_users]. *)
Definition load_users_line (line : string) : action () :=
  let fields := fields_of line in
  if (length fields <? 3)%nat
  then logger (WARNING_line "Skipping invalid line: " line)
  else
    let user_id := fields !!! 0%nat in
    let user_data := user_data_of fields in
    command (Redis.hset user_id user_data).

Definition load_users_lines (lines : list string) : action () :=
  for_each (λ _ line, load_users_line line) () lines.

Definition load_users (file : option (list string)) : method bool :=
  try_except
    (lines ← open file;
     load_users_lines lines;;
     logger (INFO "Successfully loaded users into Redis.");;
     mret true)
    (log_and_return "Error loading users: " false).

(** [int(s)] as code that may raise. *)
Definition int (s : string) : action Z :=
  match Py.int s with
  | Some n => mret n
  | None => raise (ValueError s)
  end.

(** The body of the loop of [load_scores]; a row is the list of its
    fields, as [csv.reader] yields it. *)
Definition load_scores_row (row : list string) : action () :=
  if (length row <? 3)%nat
  then logger (WARNING_row "Skipping invalid row: " row)
  else
    let leaderboard := row !!! 0%nat in
    let user_id := row !!! 1%nat in
    score ← int (row !!! 2%nat);
    command (Redis.zadd leaderboard {[user_id := score]}).

Definition load_scores_rows (rows : list (list string)) : action () :=
  for_each (λ _ row, load_scores_row row) () rows.

(** [next(reader)] *)
Definition next {X} (reader : list X) : action (X * list X) :=
  match reader with
  | [] => raise StopIteration
  | x :: rest => mret (x, rest)
  end.

Definition load_scores (file : option (list (list string))) : method bool :=
  try_except
    (reader ← open file;
     '(_, reader) ← next reader;
     load_scores_rows reader;;
     logger (INFO "Successfully loaded scores into Redis.");;
     mret true)
    (log_and_return "Error loading scores: " false).

Definition get_user_data (user_id : string)
    : method (option (gmap string string)) :=
  try_except
    (user_data ← query (Redis.hgetall user_id);
     mret (if decide (user_data = ∅) then None else Some user_data))
    (log_and_return "Error retrieving user data: " None).

(** A [str] or [None] as a condition: true for a non-empty string. *)
Definition truthy (v : option string) : bool :=
  match v with
  | Some (String _ _) => true
  | _ => false
  end.

Definition get_user_coordinates (user_id : string)
    : method (option (option string * option string)) :=
  try_except
    (longitude ← query (Redis.hget user_id "longitude");
     latitude ← query (Redis.hget user_id "latitude");
     mret (if truthy longitude && truthy latitude
           then Some (longitude, latitude) else None))
    (log_and_return "Error retrieving user coordinates: " None).

(** [subscript l i]: [l[i]] for a non-negative [i]. *)
Definition subscript {X} (l : list X) (i : nat) : action X :=
  match l !! i with
  | Some x => mret x
  | None => raise IndexError
  end.

(** The body of the loop of [get_users_by_even_id]; the accumulator is the
    pair of lists [keys], [last_names]. *)
Definition even_id_step (acc : list string * list (option string))
    (key : string) : action (list string * list (option string)) :=
  let '(keys, last_names) := acc in
  part ← subscript (Py.split ":" key) 1;
  n ← int part;
  if n `mod` 2 =? 0
  then
    last_name ← query (Redis.hget key "last_name");
    mret (keys ++ [key], last_names ++ [last_name])
  else mret (keys, last_names).

Definition get_users_by_even_id : method (list string * list (option string)) :=
  try_except
    (scan ← query (Redis.scan_iter "user:*");
     for_each even_id_step ([], []) scan)
    (log_and_return "Error retrieving users by even ID: " ([], [])).

(** Python's [float]: the conversion from text, the conversion of an
    integer, and [<=].  They are the interpreter's own; the client is
    written over any reading of them. *)
Class Float := {
  float : Type;
  float_of_str : string → option float;  (* [None] stands for [ValueError] *)
  float_of_int : Z → float;
  float_le : float → float → bool
}.

Section region.
Context `{Float}.

(** [float(user_data.get('latitude', 0))] *)
Definition latitude_of (user_data : gmap string string) : action float :=
  match user_data !! "latitude" with
  | None => mret (float_of_int 0)
  | Some s =>
      match float_of_str s with
      | Some x => mret x
      | None => raise (ValueError s)
      end
  end.

(** [user_data.get('country') in countries] *)
Definition country_in (countries : list string)
    (user_data : gmap string string) : bool :=
  match user_data !! "country" with
  | Some c => bool_decide (c ∈ countries)
  | None => false
  end.

(** [min_lat <= x <= max_lat] *)
Definition within (min_lat max_lat x : float) : bool :=
  float_le min_lat x && float_le x max_lat.

(** The three conditions of the query on one record: the gender is
    [female], the country is in the list, the latitude (0 when the
    record has none) is within the bounds; a latitude that is no number
    is within no bounds. *)
Definition in_region (countries : list string) (min_lat max_lat : float)
    (user_data : gmap string string) : bool :=
  bool_decide (user_data !! "gender" = Some "female")
  && country_in countries user_data
  && match user_data !! "latitude" with
     | None => within min_lat max_lat (float_of_int 0)
     | Some s =>
         match float_of_str s with
         | Some x => within min_lat max_lat x
         | None => false
         end
     end.

(** The body of the loop of [get_female_users_in_region]: the tests are
    made from left to right, the latitude is converted only when the
    first two hold. *)
Definition region_step (countries : list string) (min_lat max_lat : float)
    (matching_users : list (gmap string string)) (key : string)
    : action (list (gmap string string)) :=
  user_data ← query (Redis.hgetall key);
  if bool_decide (user_data !! "gender" = Some "female")
  then
    if country_in countries user_data
    then
      lat ← latitude_of user_data;
      if within min_lat max_lat lat
      then mret (matching_users ++ [user_data])
      else mret matching_users
    else mret matching_users
  else mret matching_users.

Definition get_female_users_in_region (countries : list string)
    (min_lat max_lat : float) : method (list (gmap string string)) :=
  try_except
    (scan ← query (Redis.scan_iter "user:*");
     for_each (region_step countries min_lat max_lat) [] scan)
    (log_and_return "Error retrieving female users in region: " []).

End region.

(** One step of the comprehension of [get_top_players]. *)
Definition email_step (emails : list (option string)) (player : string)
    : action (list (option string)) :=
  email ← query (Redis.hget player "email");
  mret (emails ++ [email]).

Definition get_top_players (leaderboard : string) (limit : Z)
    : method (list (option string)) :=
  try_except
    (top_players ← query (Redis.zrevrange leaderboard 0 (limit - 1));
     for_each email_step [] top_players)
    (log_and_return "Error retrieving top players: " []).


(** ** The notions the properties are stated with *)

(** A body that never writes. *)
Definition read_only {A X} (body : A → X → action A) : Prop :=
  ∀ acc x db, store (body acc x db) = db.

(** The key/value pairs of the tokens after the user id, as the format
    has them: the tokens two by two, an unpaired last token left out. *)
Fixpoint pairs_of (tokens : list string) : list (string * string) :=
  match tokens with
  | key :: value :: rest => (key, value) :: pairs_of rest
  | _ => []
  end.

Definition enter (d : gmap string string) (kv : string * string)
    : gmap string string :=
  <[kv.1 := kv.2]> d.

(** The attributes stored for a user id: what [HGETALL] reads there. *)
Definition attributes_at (db : database) (user_id : string)
    : gmap string string :=
  match db !! user_id with
  | Some (Hash h) => h
  | _ => ∅
  end.

(** The sorted set stored for a leaderboard. *)
Definition scores_at (db : database) (leaderboard : string) : gmap string Z :=
  match db !! leaderboard with
  | Some (ZSet z) => z
  | _ => ∅
  end.


(** The part of a key the loop reads as its number: the piece between the
    first colon and the next one, or the end of the key. *)
Definition id_part (key : string) : option string := Py.split ":" key !! 1%nat.

(** The text after the first colon of a key. *)
Fixpoint after_first_colon (key : string) : string :=
  match key with
  | "" => ""
  | String c rest =>
      if bool_decide (c = ":"%char) then rest else after_first_colon rest
  end.

(** The text after the last colon of a key. *)
Definition after_last_colon (key : string) : string :=
  default "" (last (Py.split ":" key)).

(** The records under the keys that match [user:*], in the order of the
    scan. *)
Definition user_records (db : database) : list (gmap string string) :=
  attributes_at db <$> Redis.matching "user:*" db.

(** The number a key carries is even: its piece after the first colon is
    read by [int] as an even number. *)
Definition even_id (key : string) : bool :=
  match id_part key ≫= Py.int with
  | Some n => n `mod` 2 =? 0
  | None => false
  end.

(** A line with at least three tokens: one that [load_users] writes. *)
Definition valid_line (line : string) : bool :=
  negb (length (fields_of line) <? 3)%nat.

(** The key a line writes to: its first token. *)
Definition user_id_of (line : string) : string := fields_of line !!! 0%nat.

(** What the lines of a file give for one user id: the dictionaries of the
    valid lines that name it, a later line winning over an earlier one. *)
Fixpoint loaded (lines : list string) (user_id : string)
    : gmap string string :=
  match lines with
  | [] => ∅
  | line :: rest =>
      loaded rest user_id
      ∪ (if valid_line line && bool_decide (user_id_of line = user_id)
         then user_data_of (fields_of line) else ∅)
  end.

(** No valid line names a key that holds a sorted set. *)
Definition no_clash (lines : list string) (db : database) : Prop :=
  ∀ line z, line ∈ lines → valid_line line = true →
            db !! user_id_of line ≠ Some (ZSet z).

(** A row with at least three fields: one that [load_scores] writes. *)
Definition valid_row (row : list string) : bool :=
  negb (length row <? 3)%nat.

(** The score a row gives its member: the third field read by [int] and
    then held as a double; [None] when either step fails. *)
Definition score_of (row : list string) : option Z :=
  Py.int (row !!! 2%nat) ≫= Redis.double.

(** The score entry of a row: the member and its score, when the row has
    a score. *)
Definition entry_of (row : list string) : gmap string Z :=
  match score_of row with
  | Some v => {[row !!! 1%nat := v]}
  | None => ∅
  end.

(** What the rows of a file give for one leaderboard: the entries of the
    valid rows that name it, a later row winning over an earlier one. *)
Fixpoint scored (rows : list (list string)) (leaderboard : string)
    : gmap string Z :=
  match rows with
  | [] => ∅
  | row :: rest =>
      scored rest leaderboard
      ∪ (if valid_row row && bool_decide (row !!! 0%nat = leaderboard)
         then entry_of row else ∅)
  end.

(** Every valid row can be written: its score is an integer for [int]
    within the range of the doubles, and its leaderboard is not a key that
    holds a hash. *)
Definition writable (rows : list (list string)) (db : database) : Prop :=
  ∀ row, row ∈ rows → valid_row row = true →
         is_Some (score_of row) ∧
         ∀ h, db !! (row !!! 0%nat) ≠ Some (Hash h).

(** A token without a double quote. *)
Fixpoint quote_free (t : string) : bool :=
  match t with
  | "" => true
  | String c t' => negb (bool_decide (c = dquote)) && quote_free t'
  end.

(** A line of quoted tokens after its first double quote: the first token,
    its closing quote, and for each further token a space, the opening
    quote, the token and its closing quote. *)
Fixpoint quoted_tail (t : string) (ts : list string) : string :=
  t +:+ String dquote
          match ts with
          | [] => ""
          | t' :: ts' => String " " (String dquote (quoted_tail t' ts'))
          end.

(** ** Data for the examples *)

Definition repeated_email : string :=
  attribute_line ["user:5"; "email"; "old@x"; "age"; "3"; "email"; "new@x"].

(** A reading of [float] for latitudes written as whole numbers, kept
    exactly: on a string that [int] accepts [float] gives the same number,
    and a string that holds no numeric literal is rejected by both.
    Fractions, exponents and the special values are outside this reading;
    the examples below use none. *)
Definition whole_degrees : Float :=
  {| float := Z; float_of_str := Py.int; float_of_int := id; float_le := Z.leb |}.

Definition ann : gmap string string :=
  <["gender" := "female"]> (<["country" := "US"]> {["latitude" := "40"]}).
Definition bea : gmap string string :=
  <["gender" := "female"]> (<["country" := "US"]> {["latitude" := "north"]}).
Definition cleo : gmap string string :=
  <["gender" := "female"]> {["country" := "KE"]}.

Definition region_db : database :=
  <["user:1" := Hash ann]> (<["user:3" := Hash cleo]>
    {["leaderboard:1" := ZSet {["user:1" := 50]}]}).

(** * Properties *)

(** ** Running actions *)

Lemma bind_run {A B} (m : action A) (f : A → action B) db :
  (m ≫= f) db =
    match returned (m db) with
    | inl e => Outcome (inl e) (store (m db)) (logged (m db))
    | inr a =>
        Outcome (returned (f a (store (m db)))) (store (f a (store (m db))))
                (logged (m db) ++ logged (f a (store (m db))))
    end.
Proof. reflexivity. Qed.

Lemma bind_returned {A B} (m : action A) (f : A → action B) db a db' w :
  m db = Outcome (inr a) db' w →
  (m ≫= f) db =
    Outcome (returned (f a db')) (store (f a db')) (w ++ logged (f a db')).
Proof. intros Hm. rewrite bind_run, Hm. reflexivity. Qed.

Lemma for_each_cons {A X} (body : A → X → action A) acc x xs db :
  for_each body acc (x :: xs) db =
    (body acc x ≫= λ acc', for_each body acc' xs) db.
Proof. reflexivity. Qed.

Lemma for_each_app {A X} (body : A → X → action A) acc xs ys db :
  for_each body acc (xs ++ ys) db =
    (for_each body acc xs ≫= λ acc', for_each body acc' ys) db.
Proof.
  revert acc db. induction xs as [|x xs IH]; intros acc db.
  - rewrite bind_run. simpl. by destruct (for_each body acc ys db).
  - simpl app. rewrite for_each_cons, !bind_run, for_each_cons, bind_run.
    destruct (body acc x db) as [[e|acc'] db1 w1]; simpl; [done|].
    rewrite IH, bind_run.
    destruct (for_each body acc' xs db1) as [[e|acc''] db2 w2]; simpl; [done|].
    by rewrite app_assoc.
Qed.

Lemma for_each_singleton {A X} (body : A → X → action A) acc x db :
  for_each body acc [x] db = body acc x db.
Proof.
  rewrite for_each_cons, bind_run.
  destruct (body acc x db) as [[e|acc'] db1 w1]; cbn; [done|].
  by rewrite app_nil_r.
Qed.

Lemma for_each_read_only {A X} (body : A → X → action A) acc xs db :
  read_only body → store (for_each body acc xs db) = db.
Proof.
  intros Hro. revert acc db. induction xs as [|x xs IH]; intros acc db; [done|].
  rewrite for_each_cons, bind_run. pose proof (Hro acc x db) as Hx.
  destruct (body acc x db) as [[e|acc'] db1 w1]; cbn in *; [done|].
  by rewrite IH.
Qed.

(** A loop that never writes raises as soon as its body raises on one of
    the elements whatever the accumulator. *)
Lemma for_each_raises {A X} (body : A → X → action A) acc xs x db :
  read_only body →
  x ∈ xs →
  (∀ acc', ∃ e, returned (body acc' x db) = inl e) →
  ∃ e, returned (for_each body acc xs db) = inl e.
Proof.
  intros Hro Hx Hbody. revert acc.
  induction xs as [|y xs IH]; intros acc; [by apply elem_of_nil in Hx|].
  rewrite for_each_cons, bind_run. pose proof (Hro acc y db) as Hy.
  destruct (body acc y db) as [[e|acc'] db1 w1] eqn:Hrun; cbn in *; [eauto|].
  subst db1. apply elem_of_cons in Hx as [->|Hx].
  - destruct (Hbody acc) as [e He]. rewrite Hrun in He. discriminate.
  - apply IH, Hx.
Qed.

(** An invariant of the accumulator of a loop that never writes. *)
Lemma for_each_accumulates {A X} (P : A → Prop) (body : A → X → action A)
    xs db :
  read_only body →
  (∀ acc x acc', x ∈ xs → P acc →
     returned (body acc x db) = inr acc' → P acc') →
  ∀ acc acc', P acc → returned (for_each body acc xs db) = inr acc' → P acc'.
Proof.
  intros Hro. induction xs as [|x xs IH]; intros Hbody acc acc' HP.
  - by intros [= <-].
  - rewrite for_each_cons, bind_run. pose proof (Hro acc x db) as Hx.
    pose proof (Hbody acc x) as Hstep.
    destruct (body acc x db) as [[e|acc1] db1 w1]; cbn in *; [done|].
    subst db1. apply IH.
    + intros acc0 y acc0' Hy. apply Hbody. by right.
    + apply (Hstep acc1); [by left|done|done].
Qed.

(** ** The attribute loader *)

Lemma load_users_run lines db :
  load_users (Some lines) db =
    let o := load_users_lines lines db in
    match returned o with
    | inr _ =>
        Outcome true (store o)
          (logged o ++ [INFO "Successfully loaded users into Redis."])
    | inl e =>
        Outcome false (store o) (logged o ++ [ERROR "Error loading users: " e])
    end.
Proof.
  unfold load_users, try_except. simpl.
  rewrite bind_run.
  by destruct (load_users_lines lines db) as [[e|[]] db1 w1].
Qed.

Lemma load_users_line_invalid line db :
  (length (fields_of line) < 3)%nat →
  load_users_line line db =
    Outcome (inr ()) db [WARNING_line "Skipping invalid line: " line].
Proof.
  intros Hlen. unfold load_users_line.
  apply Nat.ltb_lt in Hlen. rewrite Hlen. reflexivity.
Qed.

Lemma load_users_line_valid line db :
  (3 ≤ length (fields_of line))%nat →
  load_users_line line db =
    command (Redis.hset (fields_of line !!! 0%nat)
                        (user_data_of (fields_of line))) db.
Proof.
  intros Hlen. unfold load_users_line.
  apply Nat.ltb_ge in Hlen. rewrite Hlen. reflexivity.
Qed.

(** C7: a line with fewer than three tokens is skipped with a warning and
    writes nothing, and the load goes on with the lines after it: loading
    [pre ++ line :: post] returns and stores what loading [post] does from
    the database the lines of [pre] left, with the warning in the log
    between the entries of [pre] and those of [post]. *)
Theorem load_users_skips_invalid_line
    (line : string) (pre post : list string) (db db1 : database)
    (w1 : list log_entry) :
  (length (fields_of line) < 3)%nat →
  load_users_lines pre db = Outcome (inr ()) db1 w1 →
  load_users_line line db1 =
    Outcome (inr ()) db1 [WARNING_line "Skipping invalid line: " line] ∧
  load_users (Some (pre ++ line :: post)) db =
    Outcome (returned (load_users (Some post) db1))
            (store (load_users (Some post) db1))
            (w1 ++ WARNING_line "Skipping invalid line: " line
                :: logged (load_users (Some post) db1)).
Proof.
  intros Hlen Hpre. split; [by apply load_users_line_invalid|].
  rewrite !load_users_run. unfold load_users_lines in *.
  rewrite for_each_app, (bind_returned _ _ _ _ _ _ Hpre).
  rewrite for_each_cons, bind_run.
  fold (load_users_line line db1). rewrite load_users_line_invalid by done.
  cbn [returned store logged].
  destruct (for_each _ () post db1) as [[e|[]] db2 w2]; cbn;
    by rewrite <- app_assoc.
Qed.

Lemma pairs_of_short (tokens : list string) :
  (length tokens ≤ 1)%nat → pairs_of tokens = [].
Proof. destruct tokens as [|? [|? ?]]; simpl; [done..|lia]. Qed.

Lemma range_go_pairs (fields : list string) fuel start d :
  (length fields - 1 ≤ fuel + start)%nat →
  foldl (λ d i, <[fields !!! i := fields !!! S i]> d) d
        (Py.range_go fuel start (length fields - 1) 2)
  = foldl enter d (pairs_of (drop start fields)).
Proof.
  revert start d. induction fuel as [|fuel IH]; intros start d Hfuel.
  - simpl. rewrite pairs_of_short; [done|]. rewrite length_drop. lia.
  - simpl. destruct (start <? length fields - 1)%nat eqn:Hlt.
    + apply Nat.ltb_lt in Hlt.
      destruct (lookup_lt_is_Some_2 fields start) as [k Hk]; [lia|].
      destruct (lookup_lt_is_Some_2 fields (S start)) as [v Hv]; [lia|].
      rewrite (drop_S _ _ _ Hk), (drop_S _ _ _ Hv). simpl.
      rewrite (list_lookup_total_correct _ _ _ Hk).
      rewrite (list_lookup_total_correct _ _ _ Hv).
      replace (start + 2)%nat with (S (S start)) by lia.
      rewrite IH by lia. reflexivity.
    + apply Nat.ltb_ge in Hlt. simpl.
      rewrite pairs_of_short; [done|]. rewrite length_drop. lia.
Qed.

(** The dictionary built by the comprehension holds the pairs of the
    tokens after the user id, entered from left to right. *)
Lemma user_data_of_pairs (fields : list string) :
  user_data_of fields = foldl enter ∅ (pairs_of (tail fields)).
Proof.
  unfold user_data_of, Py.range. rewrite range_go_pairs by lia.
  by destruct fields.
Qed.

Lemma pairs_of_unpaired (tokens : list string) (t : string) :
  Nat.Even (length tokens) → pairs_of (tokens ++ [t]) = pairs_of tokens.
Proof.
  intros [n Hn]. revert tokens Hn.
  induction n as [|n IH]; intros tokens Hn.
  - by destruct tokens.
  - destruct tokens as [|k [|v rest]]; simpl in Hn; [lia..|].
    simpl. f_equal. apply IH. lia.
Qed.

Lemma user_data_of_unpaired (fs : list string) (t : string) :
  Nat.Odd (length fs) → user_data_of (fs ++ [t]) = user_data_of fs.
Proof.
  intros [n Hn]. rewrite !user_data_of_pairs.
  destruct fs as [|user_id tokens]; simpl in Hn; [lia|].
  simpl. rewrite pairs_of_unpaired; [done|]. exists n. lia.
Qed.

Lemma load_users_skips_invalid_line_witness :
  let good := attribute_line ["user:2"; "last_name"; "Lee"] in
  let db1 := store (load_users_lines [good] ∅) in
  let w1 := logged (load_users_lines [good] ∅) in
  load_users_line "user:3" db1 =
    Outcome (inr ()) db1 [WARNING_line "Skipping invalid line: " "user:3"] ∧
  load_users (Some ([good] ++ "user:3" :: [good])) ∅ =
    Outcome (returned (load_users (Some [good]) db1))
            (store (load_users (Some [good]) db1))
            (w1 ++ WARNING_line "Skipping invalid line: " "user:3"
                :: logged (load_users (Some [good]) db1)).
Proof.
  apply load_users_skips_invalid_line.
  - vm_compute. lia.
  - vm_compute. reflexivity.
Defined.

(** *** Repeated keys within one line *)

Lemma foldl_insert_untouched (fields : list string) (key : string)
    (indices : list nat) (d : gmap string string) :
  (∀ j, j ∈ indices → fields !!! j ≠ key) →
  foldl (λ d i, <[fields !!! i := fields !!! S i]> d) d indices !! key
  = d !! key.
Proof.
  revert d. induction indices as [|j indices IH]; intros d Hne; [done|].
  simpl. rewrite IH.
  - apply lookup_insert_ne, Hne. by left.
  - intros j' Hj'. apply Hne. by right.
Qed.

Lemma range_go_elem fuel start stop j :
  j ∈ Py.range_go fuel start stop 2 →
  (∃ m, j = start + 2 * m)%nat ∧ (j < stop)%nat.
Proof.
  revert start. induction fuel as [|fuel IH]; intros start; simpl.
  - by intros ?%elem_of_nil.
  - destruct (start <? stop)%nat eqn:Hlt; [|by intros ?%elem_of_nil].
    apply Nat.ltb_lt in Hlt.
    intros [->|Hj]%elem_of_cons.
    + split; [exists 0%nat; lia|done].
    + destruct (IH _ Hj) as [[m ->] ?]. split; [exists (S m); lia|done].
Qed.

Lemma foldl_range_last (fields : list string) (key : string) (i stop : nat) :
  fields !!! i = key →
  (i < stop)%nat →
  (∀ j, (∃ m, j = i + 2 * S m)%nat → (j < stop)%nat → fields !!! j ≠ key) →
  ∀ m fuel start (d : gmap string string),
    (i = start + 2 * m)%nat → (stop ≤ fuel + start)%nat →
    foldl (λ d i, <[fields !!! i := fields !!! S i]> d) d
          (Py.range_go fuel start stop 2) !! key
    = Some (fields !!! S i).
Proof.
  intros Hkey Hi Hlater. induction m as [|m IH]; intros fuel start d Hm Hfuel.
  - assert (start = i) as -> by lia.
    destruct fuel as [|fuel]; [lia|]. simpl.
    apply Nat.ltb_lt in Hi as Hlt. rewrite Hlt. simpl.
    rewrite foldl_insert_untouched.
    + rewrite Hkey. apply lookup_insert_eq.
    + intros j [[m' ->] Hj]%range_go_elem. apply Hlater; [|done].
      exists m'. lia.
  - destruct fuel as [|fuel]; [lia|]. simpl.
    assert ((start <? stop)%nat = true) as -> by (apply Nat.ltb_lt; lia).
    simpl. apply IH; lia.
Qed.

(** The value the comprehension leaves for a key is the one paired with
    its last occurrence at a key position. *)
Lemma user_data_of_last (fs : list string) (i : nat) (key v : string) :
  Nat.Odd i → fs !! i = Some key → fs !! S i = Some v →
  (∀ j, Nat.Odd j → (i < j)%nat → (S j < length fs)%nat → fs !! j ≠ Some key) →
  user_data_of fs !! key = Some v.
Proof.
  intros [n Hn] Hk Hv Hlater. unfold user_data_of, Py.range.
  apply lookup_lt_Some in Hv as Hlen.
  rewrite (foldl_range_last fs key i) with (m := n).
  - by rewrite (list_lookup_total_correct _ _ _ Hv).
  - by apply list_lookup_total_correct.
  - lia.
  - intros j [m ->] Hj Hkey. apply (Hlater (i + 2 * S m)%nat).
    + exists (n + S m)%nat. lia.
    + lia.
    + lia.
    + rewrite <- Hkey. apply list_lookup_lookup_total_lt. lia.
  - lia.
  - lia.
Qed.

(** A map holds one entry for each of its keys. *)
Lemma map_to_list_one_entry (h : gmap string string) (key v : string) :
  h !! key = Some v →
  filter (λ kv, kv.1 = key) (map_to_list h) = [(key, v)].
Proof.
  intros Hkv. apply elem_of_map_to_list in Hkv.
  pose proof (NoDup_fst_map_to_list h) as Hnd.
  revert Hkv Hnd. generalize (map_to_list h). intros l.
  induction l as [|[k x] l IH]; intros Hin Hnd; [by apply elem_of_nil in Hin|].
  rewrite fmap_cons in Hnd. apply NoDup_cons in Hnd as [Hk Hnd].
  apply elem_of_cons in Hin as [Heq|Hin].
  - injection Heq as <- <-. rewrite filter_cons_True by done. f_equal.
    destruct (filter _ l) as [|[k' x'] rest] eqn:Hf; [done|].
    assert ((k', x') ∈ filter (λ kv : string * string, kv.1 = key) l)
      as [Hk' Hin']%list_elem_of_filter by (rewrite Hf; left).
    simpl in Hk'. subst k'. destruct Hk.
    apply list_elem_of_fmap. by exists (key, x').
  - rewrite filter_cons_False; [by apply IH|]. simpl. intros ->.
    apply Hk. apply list_elem_of_fmap. by exists (key, v).
Qed.

Lemma foldl_enter_nonempty (ps : list (string * string)) (d : gmap string string) :
  ps ≠ [] ∨ d ≠ ∅ → foldl enter d ps ≠ ∅.
Proof.
  revert d. induction ps as [|[k v] ps IH]; intros d Hne; simpl.
  - by destruct Hne.
  - apply IH. right. apply insert_non_empty.
Qed.

Lemma user_data_of_nonempty (fs : list string) :
  (3 ≤ length fs)%nat → user_data_of fs ≠ ∅.
Proof.
  intros Hlen. rewrite user_data_of_pairs. apply foldl_enter_nonempty. left.
  destruct fs as [|? [|? [|? ?]]]; simpl in *; try lia. done.
Qed.

(** What a valid line does to the database: one [HSET] that fails on a
    key holding a sorted set and otherwise merges the line's dictionary
    into the hash of the key. *)
Lemma load_users_line_store (line : string) (db : database) :
  (3 ≤ length (fields_of line))%nat →
  let user_id := fields_of line !!! 0%nat in
  let user_data := user_data_of (fields_of line) in
  load_users_line line db =
    match db !! user_id with
    | None => Outcome (inr ()) (<[user_id := Hash user_data]> db) []
    | Some (Hash h) =>
        Outcome (inr ()) (<[user_id := Hash (user_data ∪ h)]> db) []
    | Some (ZSet _) => Outcome (inl WRONGTYPE) db []
    end.
Proof.
  intros Hlen. cbn zeta. rewrite load_users_line_valid by done.
  unfold command, Redis.hset.
  destruct (decide _) as [Hempty|_]; [by apply user_data_of_nonempty in Hempty|].
  by destruct (db !! _) as [[h|z]|].
Qed.

(** C10: when a key token occurs more than once in a valid line, the hash
    stored for the user holds one entry for that key, with the value paired
    with the last occurrence of the key in the line. *)
Theorem load_users_last_duplicate_wins
    (line : string) (i : nat) (key v : string) (db db' : database)
    (w : list log_entry) :
  let fs := fields_of line in
  (3 ≤ length fs)%nat →
  Nat.Odd i → fs !! i = Some key → fs !! S i = Some v →
  (∀ j, Nat.Odd j → (i < j)%nat → (S j < length fs)%nat → fs !! j ≠ Some key) →
  load_users_line line db = Outcome (inr ()) db' w →
  ∃ h, db' !! (fs !!! 0%nat) = Some (Hash h) ∧
       h !! key = Some v ∧
       filter (λ kv, kv.1 = key) (map_to_list h) = [(key, v)].
Proof.
  intros fs Hlen Hodd Hk Hv Hlater Hrun.
  pose proof (user_data_of_last fs i key v Hodd Hk Hv Hlater) as Hlast.
  rewrite load_users_line_store in Hrun by done. fold fs in Hrun.
  destruct (db !! (fs !!! 0%nat)) as [[h|z]|] eqn:Hdb; [| discriminate |];
    injection Hrun as <- <-;
    eexists; (split; [apply lookup_insert_eq|]).
  - assert ((user_data_of fs ∪ h) !! key = Some v) as Hu
      by by apply lookup_union_Some_l.
    split; [done|]. by apply map_to_list_one_entry.
  - split; [done|]. by apply map_to_list_one_entry.
Qed.

Lemma load_users_last_duplicate_wins_witness :
  ∃ h, store (load_users_line repeated_email ∅)
         !! (fields_of repeated_email !!! 0%nat) = Some (Hash h) ∧
       h !! "email" = Some "new@x" ∧
       filter (λ kv, kv.1 = "email") (map_to_list h) = [("email", "new@x")].
Proof.
  apply (load_users_last_duplicate_wins _ 5 "email" "new@x" ∅ _ []).
  - vm_compute. lia.
  - exists 2%nat. reflexivity.
  - vm_compute. reflexivity.
  - vm_compute. reflexivity.
  - intros j _ Hj Hlen. exfalso.
    assert (length (fields_of repeated_email) = 7%nat) as Hl
      by (vm_compute; reflexivity).
    rewrite Hl in Hlen. lia.
  - vm_compute. reflexivity.
Defined.

(** *** What a load leaves for a user id *)

Lemma get_user_data_hash (user_id : string) (db : database)
    (h : gmap string string) :
  db !! user_id = Some (Hash h) → h ≠ ∅ →
  get_user_data user_id db = Outcome (Some h) db [].
Proof.
  intros Hdb Hne. unfold get_user_data, try_except, query, Redis.hgetall.
  rewrite bind_run. cbn. rewrite Hdb. cbn.
  by destruct (decide (h = ∅)).
Qed.

Lemma foldl_enter_list_to_map (ps : list (string * string))
    (d : gmap string string) :
  foldl enter d ps = list_to_map (reverse ps) ∪ d.
Proof.
  revert d. induction ps as [|[k v] ps IH]; intros d; simpl.
  - by rewrite (left_id_L ∅ (∪)).
  - rewrite IH, reverse_cons, list_to_map_app. simpl. unfold enter. simpl.
    rewrite <- (assoc_L (∪)). f_equal.
    rewrite insert_empty. by rewrite <- insert_union_singleton_l.
Qed.

Lemma length_pairs_of (tokens : list string) :
  length (pairs_of tokens) = Nat.div2 (length tokens).
Proof.
  remember (length tokens) as n eqn:Hn. revert tokens Hn.
  induction n as [n IH] using lt_wf_ind. intros tokens Hn.
  destruct tokens as [|k [|v rest]]; subst n; simpl; [done..|].
  f_equal. apply (IH (length rest)); [simpl; lia|done].
Qed.

(** C8: when the number of tokens after the user id is odd, the last token
    forms no pair and the line is not an error: its one [HSET] succeeds
    with no warning and leaves, for the user id, the pairs of the tokens
    before the last one (the tokens two by two, a later pair winning on a
    repeated key) over what was stored there.  The last token is written
    nowhere as a key: unless it is also the key of one of the pairs, the
    hash holds for it what it held before the line. *)
Theorem load_users_drops_unpaired_token
    (line : string) (fs : list string) (t : string) (db : database) :
  fields_of line = fs ++ [t] →
  (3 ≤ length (fields_of line))%nat →
  Nat.Odd (length (fields_of line) - 1) →
  (∀ z, db !! (fs !!! 0%nat) ≠ Some (ZSet z)) →
  let user_id := fs !!! 0%nat in
  let pairs := pairs_of (tail fs) in
  let stored := list_to_map (reverse pairs) ∪ attributes_at db user_id in
  load_users_line line db = Outcome (inr ()) (<[user_id := Hash stored]> db) [] ∧
  length pairs = Nat.div2 (length (fields_of line) - 1) ∧
  (∀ k v, (k, v) ∈ pairs → is_Some (stored !! k)) ∧
  (t ∉ pairs.*1 → stored !! t = attributes_at db user_id !! t).
Proof.
  intros Hfs Hlen Hodd Hkind user_id pairs stored.
  assert (user_data_of (fields_of line) = list_to_map (reverse pairs)) as Hdata.
  { rewrite Hfs, user_data_of_unpaired.
    - rewrite user_data_of_pairs, foldl_enter_list_to_map.
      by rewrite (right_id_L ∅ (∪)).
    - rewrite Hfs, length_app in Hodd. simpl in Hodd.
      by replace (length fs + 1 - 1)%nat with (length fs) in Hodd by lia. }
  assert (fields_of line !!! 0%nat = user_id) as Hid.
  { rewrite Hfs. rewrite Hfs, length_app in Hlen. simpl in Hlen.
    unfold user_id. destruct fs; simpl in *; [lia|done]. }
  split; [|split; [|split]].
  - pose proof (load_users_line_store line db Hlen) as Hline.
    cbn zeta in Hline. rewrite Hline, Hid, Hdata.
    unfold stored, attributes_at. fold user_id in Hkind.
    destruct (db !! user_id) as [[h|z]|] eqn:Hdb.
    + done.
    + by destruct (Hkind z).
    + by rewrite (right_id_L ∅ (∪)).
  - unfold pairs. rewrite length_pairs_of, Hfs, length_app. simpl.
    destruct Hodd as [n Hn]. rewrite Hfs, length_app in Hn. simpl in Hn.
    destruct fs as [|f0 fs']; simpl in *; [lia|].
    replace (length fs' + 1 - 0)%nat with (S (length fs')) by lia.
    replace (length fs') with (2 * n)%nat by lia.
    by rewrite Nat.div2_succ_double, Nat.div2_double.
  - intros k v Hin. unfold stored.
    destruct ((list_to_map (reverse pairs) : gmap string string) !! k)
      as [v'|] eqn:Hk.
    + exists v'. by apply lookup_union_Some_l.
    + apply not_elem_of_list_to_map in Hk. destruct Hk.
      rewrite fmap_reverse, elem_of_reverse. apply list_elem_of_fmap.
      by exists (k, v).
  - intros Ht. unfold stored. apply lookup_union_r.
    apply not_elem_of_list_to_map. by rewrite fmap_reverse, elem_of_reverse.
Qed.

Lemma load_users_drops_unpaired_token_witness :
  let line :=
    attribute_line ["user:7"; "first_name"; "Ann"; "age"; "30"; "stray"] in
  let db : database := {["user:7" := Hash {["email" := "ann@x"]}]} in
  let fs := ["user:7"; "first_name"; "Ann"; "age"; "30"] in
  let user_id := fs !!! 0%nat in
  let pairs := pairs_of (tail fs) in
  let stored := list_to_map (reverse pairs) ∪ attributes_at db user_id in
  load_users_line line db = Outcome (inr ()) (<[user_id := Hash stored]> db) [] ∧
  length pairs = Nat.div2 (length (fields_of line) - 1) ∧
  (∀ k v, (k, v) ∈ pairs → is_Some (stored !! k)) ∧
  ("stray" ∉ pairs.*1 → stored !! "stray" = attributes_at db user_id !! "stray").
Proof.
  apply (load_users_drops_unpaired_token _
           ["user:7"; "first_name"; "Ann"; "age"; "30"] "stray").
  - vm_compute. reflexivity.
  - vm_compute. lia.
  - exists 2%nat. vm_compute. reflexivity.
  - intros z Hz. vm_compute in Hz. discriminate.
Defined.

(** C1, as the code has it: the write of a valid line is one [HSET], which
    sets the parsed pairs and keeps the other fields already stored for the
    user id.  When the lines before it are processed and the key does not
    hold a sorted set, the load of a file that ends with the line succeeds
    and [get_user_data] then returns the mapping stored before the line
    overlaid with the parsed pairs; it returns exactly the parsed pairs,
    half as many as there are tokens after the id, when nothing was stored
    for the user id before and the keys of the line are distinct. *)
Theorem load_users_then_get_user_data
    (pre : list string) (line : string) (db db1 : database)
    (w1 : list log_entry) :
  let fs := fields_of line in
  let user_id := fs !!! 0%nat in
  (3 ≤ length fs)%nat →
  load_users_lines pre db = Outcome (inr ()) db1 w1 →
  (∀ z, db1 !! user_id ≠ Some (ZSet z)) →
  ∃ db' w,
    load_users (Some (pre ++ [line])) db = Outcome true db' w ∧
    returned (get_user_data user_id db')
      = Some (user_data_of fs ∪ attributes_at db1 user_id) ∧
    (db1 !! user_id = None → NoDup (pairs_of (tail fs)).*1 →
     ∃ h, returned (get_user_data user_id db') = Some h ∧
          map_to_list h ≡ₚ pairs_of (tail fs) ∧
          length (map_to_list h) = Nat.div2 (length fs - 1)).
Proof.
  intros fs user_id Hlen Hpre Hkind.
  pose proof (user_data_of_nonempty fs Hlen) as Hne.
  rewrite load_users_run. unfold load_users_lines in *.
  rewrite for_each_app, (bind_returned _ _ _ _ _ _ Hpre), for_each_singleton.
  pose proof (load_users_line_store line db1 Hlen) as Hline.
  cbn zeta in Hline. fold fs in Hline. fold user_id in Hline.
  rewrite Hline. unfold attributes_at.
  destruct (db1 !! user_id) as [[h|z]|] eqn:Hdb.
  - cbn. eexists _, _. split; [reflexivity|].
    rewrite (get_user_data_hash _ _ (user_data_of fs ∪ h)).
    + split; [done|]. intros [=].
    + apply lookup_insert_eq.
    + intros Hu. by apply map_positive_l in Hu.
  - by destruct (Hkind z).
  - cbn. eexists _, _. split; [reflexivity|].
    rewrite (get_user_data_hash _ _ (user_data_of fs));
      [|apply lookup_insert_eq|done].
    split; [by rewrite (right_id_L ∅ (∪))|].
    intros _ Hnd. exists (user_data_of fs). split; [done|].
    assert (map_to_list (user_data_of fs) ≡ₚ pairs_of (tail fs)) as Hperm.
    { rewrite user_data_of_pairs, foldl_enter_list_to_map.
      rewrite (right_id_L ∅ (∪)), map_to_list_to_map.
      - apply reverse_Permutation.
      - by rewrite fmap_reverse, reverse_Permutation. }
    split; [done|]. rewrite Hperm, length_pairs_of.
    f_equal. destruct fs; simpl; [done|lia].
Qed.

Lemma load_users_then_get_user_data_witness :
  let pre := [attribute_line ["user:3"; "last_name"; "Kim"]] in
  let line := attribute_line ["user:2"; "last_name"; "Lee"; "email"; "lee@x"] in
  let db1 := store (load_users_lines pre ∅) in
  let fs := fields_of line in
  ∃ db' w,
    load_users (Some (pre ++ [line])) ∅ = Outcome true db' w ∧
    returned (get_user_data (fs !!! 0%nat) db')
      = Some (user_data_of fs ∪ attributes_at db1 (fs !!! 0%nat)) ∧
    (db1 !! (fs !!! 0%nat) = None → NoDup (pairs_of (tail fs)).*1 →
     ∃ h, returned (get_user_data (fs !!! 0%nat) db') = Some h ∧
          map_to_list h ≡ₚ pairs_of (tail fs) ∧
          length (map_to_list h) = Nat.div2 (length fs - 1)).
Proof.
  apply (load_users_then_get_user_data _ _ (∅ : database) _ []).
  - vm_compute. lia.
  - vm_compute. reflexivity.
  - intros z Hz. vm_compute in Hz. discriminate.
Defined.

(** C1 as stated fails: with an attribute stored beforehand for the user
    id, loading a line with one pair succeeds and [get_user_data] returns
    the old attribute along with the new pair, not the new pair alone. *)
Lemma load_users_keeps_old_attributes :
  let db : database := {["user:1" := Hash {["nickname" := "Annie"]}]} in
  let line := attribute_line ["user:1"; "first_name"; "Ann"] in
  (3 ≤ length (fields_of line))%nat ∧
  Nat.Even (length (fields_of line) - 1) ∧
  returned (load_users (Some [line]) db) = true ∧
  returned (get_user_data "user:1" (store (load_users (Some [line]) db)))
    = Some (<["first_name" := "Ann"]> {["nickname" := "Annie"]}) ∧
  returned (get_user_data "user:1" (store (load_users (Some [line]) db)))
    ≠ Some (list_to_map (pairs_of (tail (fields_of line)))).
Proof.
  cbn zeta. split; [vm_compute; lia|]. split; [exists 1%nat; reflexivity|].
  split; [vm_compute; reflexivity|]. split; [vm_compute; reflexivity|].
  intros Heq.
  apply (f_equal (λ r, r ≫= (.!! "nickname"))) in Heq.
  vm_compute in Heq. discriminate.
Qed.

(** ** The score loader *)

Lemma load_scores_run header rows db :
  load_scores (Some (header :: rows)) db =
    let o := load_scores_rows rows db in
    match returned o with
    | inr _ =>
        Outcome true (store o)
          (logged o ++ [INFO "Successfully loaded scores into Redis."])
    | inl e =>
        Outcome false (store o) (logged o ++ [ERROR "Error loading scores: " e])
    end.
Proof.
  unfold load_scores, try_except. simpl. rewrite bind_run.
  by destruct (load_scores_rows rows db) as [[e|[]] db1 w1].
Qed.

Lemma load_scores_store header rows db :
  store (load_scores (Some (header :: rows)) db)
  = store (load_scores_rows rows db).
Proof.
  rewrite load_scores_run. cbn zeta.
  by destruct (returned (load_scores_rows rows db)).
Qed.

(** A row whose score [int] rejects raises and writes nothing. *)
Lemma load_scores_row_bad_score (row : list string) (db : database) :
  (3 ≤ length row)%nat → Py.int (row !!! 2%nat) = None →
  load_scores_row row db = Outcome (inl (ValueError (row !!! 2%nat))) db [].
Proof.
  intros Hlen Hint. unfold load_scores_row.
  apply Nat.ltb_ge in Hlen. rewrite Hlen.
  rewrite bind_run. unfold int. rewrite Hint. reflexivity.
Qed.

(** C3: a data row with at least three fields whose score field [int]
    rejects fails the whole load: [load_scores] returns false, and the
    database it leaves is the one the rows before the malformed row left,
    so those rows stay written and no row after it is written. *)
Theorem load_scores_fails_on_bad_score
    (header row : list string) (pre post : list (list string))
    (db : database) :
  (3 ≤ length row)%nat →
  Py.int (row !!! 2%nat) = None →
  returned (load_scores (Some (header :: pre ++ row :: post)) db) = false ∧
  store (load_scores (Some (header :: pre ++ row :: post)) db)
    = store (load_scores_rows pre db).
Proof.
  intros Hlen Hint. rewrite load_scores_run. unfold load_scores_rows.
  rewrite for_each_app, bind_run.
  destruct (for_each _ () pre db) as [[e|[]] db1 w1]; cbn; [done|].
  rewrite bind_run. fold (load_scores_row row db1).
  rewrite load_scores_row_bad_score by done. done.
Qed.

Lemma load_scores_fails_on_bad_score_witness :
  let header := ["leaderboard"; "user"; "score"] in
  let pre := [["leaderboard:1"; "user:2"; "50"]] in
  let post := [["leaderboard:1"; "user:3"; "70"]] in
  let row := ["leaderboard:1"; "user:9"; "9.5"] in
  returned (load_scores (Some (header :: pre ++ row :: post)) ∅) = false ∧
  store (load_scores (Some (header :: pre ++ row :: post)) ∅)
    = store (load_scores_rows pre ∅).
Proof.
  apply load_scores_fails_on_bad_score.
  - simpl. lia.
  - vm_compute. reflexivity.
Defined.

Lemma for_each_store_invariant {A X} (P : database → Prop)
    (body : A → X → action A) (xs : list X) :
  (∀ acc x db, x ∈ xs → P db → P (store (body acc x db))) →
  ∀ acc db, P db → P (store (for_each body acc xs db)).
Proof.
  induction xs as [|x xs IH]; intros Hbody acc db HP; [done|].
  rewrite for_each_cons, bind_run.
  pose proof (Hbody acc x db ltac:(left) HP) as HP1.
  destruct (body acc x db) as [[e|acc'] db1 w1]; cbn in *; [done|].
  apply IH; [|done]. intros acc0 y db0 Hy. apply Hbody. by right.
Qed.


Lemma doubles_singleton (member : string) (n : Z) :
  Redis.doubles {[member := n]}
  = (λ v, ({[member := v]} : gmap string Z)) <$> Redis.double n.
Proof.
  unfold Redis.doubles. rewrite map_to_list_singleton. cbn.
  destruct (Redis.double n) as [v|]; [|done]. cbn. by rewrite insert_empty.
Qed.

(** What a row with three fields and an integer score does: the score is
    written as the server holds it, and a score that is no double makes
    the write fail. *)
Lemma load_scores_row_store (leaderboard user_id score : string)
    (extra : list string) (n : Z) (db : database) :
  Py.int score = Some n →
  load_scores_row (leaderboard :: user_id :: score :: extra) db =
    match Redis.double n with
    | None => Outcome (inl NotAFloat) db []
    | Some v =>
        match db !! leaderboard with
        | None =>
            Outcome (inr ()) (<[leaderboard := ZSet {[user_id := v]}]> db) []
        | Some (ZSet z) =>
            Outcome (inr ())
              (<[leaderboard := ZSet ({[user_id := v]} ∪ z)]> db) []
        | Some (Hash _) => Outcome (inl WRONGTYPE) db []
        end
    end.
Proof.
  intros Hint. unfold load_scores_row. cbn [length Nat.ltb Nat.leb].
  rewrite bind_run. unfold int. cbn. rewrite Hint. cbn.
  unfold command, Redis.zadd.
  destruct (decide _) as [Hempty|_];
    [by apply map_non_empty_singleton in Hempty|].
  rewrite insert_empty, doubles_singleton.
  destruct (Redis.double n) as [v|]; [|done]. cbn [fmap option_fmap option_map].
  by destruct (db !! leaderboard) as [[h|z]|].
Qed.




(** ** The scan of the user keys *)

Lemma elem_of_matching (pattern key : string) (db : database) :
  key ∈ Redis.matching pattern db ↔
  Redis.glob pattern key = true ∧ is_Some (db !! key).
Proof.
  unfold Redis.matching. rewrite list_elem_of_filter, list_elem_of_fmap.
  split.
  - intros [Hglob [[k v] [-> Hin%elem_of_map_to_list]]]. eauto.
  - intros [Hglob [v Hv]]. split; [done|].
    exists (key, v). split; [done|]. by apply elem_of_map_to_list.
Qed.

Lemma even_id_step_run keys last_names key db :
  even_id_step (keys, last_names) key db =
    match Py.split ":" key !! 1%nat with
    | None => Outcome (inl IndexError) db []
    | Some part =>
        match Py.int part with
        | None => Outcome (inl (ValueError part)) db []
        | Some n =>
            if n `mod` 2 =? 0
            then match Redis.hget key "last_name" db with
                 | inl e => Outcome (inl e) db []
                 | inr last_name =>
                     Outcome (inr (keys ++ [key], last_names ++ [last_name]))
                             db []
                 end
            else Outcome (inr (keys, last_names)) db []
        end
    end.
Proof.
  unfold even_id_step, subscript, int, query. rewrite bind_run.
  destruct (Py.split ":" key !! 1%nat) as [part|]; [|done].
  cbn [returned store logged mret action_ret]. rewrite bind_run.
  destruct (Py.int part) as [n|]; [|done].
  cbn [returned store logged mret action_ret app].
  destruct (n `mod` 2 =? 0); [|done].
  rewrite bind_run. by destruct (Redis.hget key "last_name" db).
Qed.

Lemma even_id_step_read_only : read_only even_id_step.
Proof.
  intros [keys last_names] key db. rewrite even_id_step_run.
  repeat case_match; done.
Qed.

Lemma get_users_by_even_id_run db :
  get_users_by_even_id db =
    let o := for_each even_id_step ([], []) (Redis.matching "user:*" db) db in
    match returned o with
    | inr acc => Outcome acc (store o) (logged o)
    | inl e =>
        Outcome ([], []) (store o)
          (logged o ++ [ERROR "Error retrieving users by even ID: " e])
    end.
Proof.
  unfold get_users_by_even_id, try_except. rewrite bind_run. cbn.
  by destruct (for_each _ _ _ db) as [[e|acc] db1 w1].
Qed.

(** C6, as the code has it: every key [get_users_by_even_id] returns is a
    key of the database that matches [user:*] and whose piece between the
    first colon and the next colon (or the end of the key) is read by
    [int] as an even number; the two lists have the same length, and the
    i-th last name is what [HGET] gives for the field [last_name] of the
    i-th key. *)
Theorem get_users_by_even_id_sound (db : database) :
  Forall (λ key,
            is_Some (db !! key) ∧ Redis.glob "user:*" key = true ∧
            ∃ part n, id_part key = Some part ∧ Py.int part = Some n ∧
                      n `mod` 2 = 0)
         (returned (get_users_by_even_id db)).1 ∧
  length (returned (get_users_by_even_id db)).1
    = length (returned (get_users_by_even_id db)).2 ∧
  ∀ i key, (returned (get_users_by_even_id db)).1 !! i = Some key →
    ∃ last_name, (returned (get_users_by_even_id db)).2 !! i = Some last_name ∧
                 Redis.hget key "last_name" db = inr last_name.
Proof.
  set (good := λ key : string,
         is_Some (db !! key) ∧ Redis.glob "user:*" key = true ∧
         ∃ part n, id_part key = Some part ∧ Py.int part = Some n ∧
                   n `mod` 2 = 0).
  set (fetched := λ (key : string) (last_name : option string),
         Redis.hget key "last_name" db = inr last_name).
  assert (Forall good (returned (get_users_by_even_id db)).1 ∧
          Forall2 fetched (returned (get_users_by_even_id db)).1
                          (returned (get_users_by_even_id db)).2) as [Hgood Hf].
  { rewrite get_users_by_even_id_run. cbn zeta.
    destruct (returned (for_each _ _ _ db)) as [e|acc] eqn:Hrun; cbn;
      [by split; constructor|].
    revert Hrun.
    apply (for_each_accumulates
             (λ acc, Forall good acc.1 ∧ Forall2 fetched acc.1 acc.2));
      [apply even_id_step_read_only| |by split; constructor].
    intros [keys last_names] key acc' [Hglob Hin]%elem_of_matching [Hg Hf].
    rewrite even_id_step_run. unfold good, fetched, id_part in *.
    destruct (Py.split ":" key !! 1%nat) as [part|] eqn:Hpart; [|done].
    destruct (Py.int part) as [n|] eqn:Hint; [|done].
    destruct (n `mod` 2 =? 0) eqn:Heven; [|by intros [= <-]].
    destruct (Redis.hget key "last_name" db) as [e|ln] eqn:Hget; [done|].
    intros [= <-]. cbn in *. split.
    - apply Forall_app. split; [done|]. apply Forall_singleton.
      apply Z.eqb_eq in Heven. eauto 10.
    - apply Forall2_app; [done|]. by apply Forall2_cons. }
  split; [done|]. split; [by eapply Forall2_length|].
  intros i key Hi.
  destruct (Forall2_lookup_l _ _ _ _ _ Hf Hi) as (ln & Hln & Hget). eauto.
Qed.

(** C9, as the code has it: when some key of the database matches
    [user:*] and its piece between the first colon and the next colon (or
    the end of the key) is not an integer for [int], the whole call
    returns the two empty lists. *)
Theorem get_users_by_even_id_fails_closed
    (db : database) (key part : string) :
  is_Some (db !! key) → Redis.glob "user:*" key = true →
  id_part key = Some part → Py.int part = None →
  returned (get_users_by_even_id db) = ([], []).
Proof.
  intros Hin Hglob Hpart Hint. rewrite get_users_by_even_id_run. cbn zeta.
  destruct (for_each_raises even_id_step ([], [])
              (Redis.matching "user:*" db) key db) as [e He].
  - apply even_id_step_read_only.
  - by apply elem_of_matching.
  - intros [keys last_names]. rewrite even_id_step_run.
    unfold id_part in Hpart. rewrite Hpart, Hint. eauto.
  - by rewrite He.
Qed.

Lemma get_users_by_even_id_fails_closed_witness :
  returned (get_users_by_even_id
              (<["user:2" := Hash {["last_name" := "Lee"]}]>
                 {["user:x7" := Hash {["last_name" := "Kim"]}]}))
  = ([], []).
Proof.
  apply (get_users_by_even_id_fails_closed _ "user:x7" "x7").
  - vm_compute. eauto.
  - vm_compute. reflexivity.
  - vm_compute. reflexivity.
  - vm_compute. reflexivity.
Defined.

(** C6 as stated fails on a key with a second colon: [user:2:7] is
    returned, though the text after its colon is no number when the first
    colon is meant, and the odd number 7 when the last one is. *)
Lemma get_users_by_even_id_second_colon :
  let db : database := {["user:2:7" := Hash {["last_name" := "Lee"]}]} in
  returned (get_users_by_even_id db) = (["user:2:7"], [Some "Lee"]) ∧
  Py.int (after_first_colon "user:2:7") = None ∧
  Py.int (after_last_colon "user:2:7") = Some 7 ∧
  7 `mod` 2 ≠ 0.
Proof. cbn zeta. repeat split; [vm_compute; reflexivity..|done]. Qed.

(** C9 as stated fails on a key with a second colon: the text after the
    first colon of [user:2:x] is not an integer, yet the call returns that
    key instead of the two empty lists. *)
Lemma get_users_by_even_id_keeps_second_colon :
  let db : database := {["user:2:x" := Hash {["last_name" := "Lee"]}]} in
  is_Some (db !! "user:2:x") ∧
  Redis.glob "user:*" "user:2:x" = true ∧
  Py.int (after_first_colon "user:2:x") = None ∧
  returned (get_users_by_even_id db) = (["user:2:x"], [Some "Lee"]) ∧
  returned (get_users_by_even_id db) ≠ ([], []).
Proof.
  cbn zeta. split; [vm_compute; eauto|].
  repeat split; [vm_compute; reflexivity..|]. vm_compute. discriminate.
Qed.

(** ** The region query *)

Section region_properties.
Context `{Float}.

Lemma region_step_hash countries min_lat max_lat matching_users key db h :
  db !! key = Some (Hash h) →
  (h !! "gender" = Some "female" → country_in countries h = true →
   ∀ s, h !! "latitude" = Some s → is_Some (float_of_str s)) →
  region_step countries min_lat max_lat matching_users key db =
    Outcome (inr (if in_region countries min_lat max_lat h
                  then matching_users ++ [h] else matching_users)) db [].
Proof.
  intros Hdb Hlat. unfold region_step, query, Redis.hgetall, in_region.
  rewrite bind_run, Hdb. cbn [returned store logged app].
  destruct (bool_decide (h !! "gender" = Some "female")) eqn:Hg; [|done].
  apply bool_decide_eq_true in Hg.
  destruct (country_in countries h) eqn:Hc; [|done].
  cbn [andb]. unfold latitude_of. rewrite bind_run.
  destruct (h !! "latitude") as [s|] eqn:Hs.
  - destruct (Hlat Hg eq_refl s eq_refl) as [x Hx]. rewrite Hx. cbn.
    by destruct (within min_lat max_lat x).
  - cbn. by destruct (within min_lat max_lat (float_of_int 0)).
Qed.

Lemma region_loop countries min_lat max_lat db keys matching_users :
  (∀ key, key ∈ keys →
     ∃ h, db !! key = Some (Hash h) ∧
          (h !! "gender" = Some "female" → country_in countries h = true →
           ∀ s, h !! "latitude" = Some s → is_Some (float_of_str s))) →
  for_each (region_step countries min_lat max_lat) matching_users keys db =
    Outcome
      (inr (matching_users
              ++ filter (λ r, in_region countries min_lat max_lat r = true)
                        (attributes_at db <$> keys)))
      db [].
Proof.
  revert matching_users.
  induction keys as [|key keys IH]; intros matching_users Hkeys.
  - cbn. by rewrite app_nil_r.
  - destruct (Hkeys key ltac:(left)) as (h & Hdb & Hlat).
    rewrite for_each_cons, bind_run, (region_step_hash _ _ _ _ _ _ h) by done.
    cbn [returned store logged app]. rewrite IH.
    + rewrite fmap_cons.
      replace (attributes_at db key) with h
        by (unfold attributes_at; by rewrite Hdb).
      destruct (in_region countries min_lat max_lat h) eqn:Hin.
      * rewrite filter_cons_True by done. by rewrite <- app_assoc.
      * rewrite filter_cons_False; [done|]. by rewrite Hin.
    + intros key' Hkey'. apply Hkeys. by right.
Qed.

(** C5, as the code has it: when every key that matches [user:*] holds a
    hash, and every such record whose gender is [female] and whose country
    is in the list has a latitude that [float] accepts or none at all,
    [get_female_users_in_region] returns exactly the records under those
    keys that meet the three conditions, a missing latitude counting as
    0. *)
Theorem get_female_users_in_region_filters
    (countries : list string) (min_lat max_lat : float) (db : database) :
  (∀ key z, Redis.glob "user:*" key = true → db !! key ≠ Some (ZSet z)) →
  (∀ key h s, Redis.glob "user:*" key = true → db !! key = Some (Hash h) →
     h !! "gender" = Some "female" → country_in countries h = true →
     h !! "latitude" = Some s → is_Some (float_of_str s)) →
  returned (get_female_users_in_region countries min_lat max_lat db)
  = filter (λ r, in_region countries min_lat max_lat r = true)
           (user_records db).
Proof.
  intros Hkind Hlat. unfold get_female_users_in_region, try_except.
  rewrite bind_run. cbn [query Redis.scan_iter returned store logged app].
  rewrite region_loop; [done|].
  intros key [Hglob [v Hv]]%elem_of_matching.
  destruct v as [h|z]; [|by destruct (Hkind key z)].
  exists h. split; [done|]. intros Hg Hc s Hs. by eapply Hlat.
Qed.

Lemma region_step_read_only countries min_lat max_lat :
  read_only (region_step countries min_lat max_lat).
Proof.
  intros acc key db. unfold region_step, query, latitude_of.
  rewrite bind_run. cbn. destruct (Redis.hgetall key db) as [e|h]; [done|].
  cbn. repeat (case_match; try done); rewrite bind_run; cbn;
    repeat (case_match; try done).
Qed.

(** Otherwise the call fails closed: a key that matches [user:*] and holds
    a sorted set, or a record that passes the first two tests and has a
    latitude that [float] rejects, makes it return the empty list. *)
Lemma get_female_users_in_region_fails_closed
    (countries : list string) (min_lat max_lat : float) (db : database)
    (key : string) :
  Redis.glob "user:*" key = true →
  ((∃ z, db !! key = Some (ZSet z)) ∨
   (∃ h s, db !! key = Some (Hash h) ∧ h !! "gender" = Some "female" ∧
           country_in countries h = true ∧ h !! "latitude" = Some s ∧
           float_of_str s = None)) →
  returned (get_female_users_in_region countries min_lat max_lat db) = [].
Proof.
  intros Hglob Hbad. unfold get_female_users_in_region, try_except.
  rewrite bind_run. cbn [query Redis.scan_iter returned store logged app].
  destruct (for_each_raises (region_step countries min_lat max_lat) []
              (Redis.matching "user:*" db) key db) as [e He].
  - apply region_step_read_only.
  - apply elem_of_matching. split; [done|].
    destruct Hbad as [[z ->]|(h & s & -> & _)]; eauto.
  - intros acc. unfold region_step, query, Redis.hgetall. rewrite bind_run.
    destruct Hbad as [[z ->]|(h & s & -> & Hg & Hc & Hs & Hf)]; cbn; [eauto|].
    rewrite bool_decide_eq_true_2, Hc by done.
    unfold latitude_of. rewrite bind_run, Hs, Hf. cbn. eauto.
  - by rewrite He.
Qed.

End region_properties.

Lemma region_db_users (key : string) (v : value) :
  Redis.glob "user:*" key = true → region_db !! key = Some v →
  (key = "user:1" ∧ v = Hash ann) ∨ (key = "user:3" ∧ v = Hash cleo).
Proof.
  intros Hglob Hdb.
  assert (key ∈ Redis.matching "user:*" region_db) as Hin
    by (apply elem_of_matching; eauto).
  vm_compute in Hin.
  assert (region_db !! "user:1" = Some (Hash ann)) as H1
    by (vm_compute; reflexivity).
  assert (region_db !! "user:3" = Some (Hash cleo)) as H3
    by (vm_compute; reflexivity).
  apply elem_of_cons in Hin as [->|Hin]; [right; split; congruence|].
  apply elem_of_cons in Hin as [->|Hin]; [left; split; congruence|].
  by apply elem_of_nil in Hin.
Qed.

Lemma get_female_users_in_region_filters_witness :
  returned (@get_female_users_in_region whole_degrees ["US"; "KE"] (-10) 10
              region_db)
  = filter (λ r, @in_region whole_degrees ["US"; "KE"] (-10) 10 r = true)
           (user_records region_db).
Proof.
  apply (@get_female_users_in_region_filters whole_degrees).
  - intros key z Hglob Hdb.
    destruct (region_db_users _ _ Hglob Hdb) as [[_ [=]]|[_ [=]]].
  - intros key h s Hglob Hdb _ _ Hs.
    destruct (region_db_users _ _ Hglob Hdb) as [[_ [= ->]]|[_ [= ->]]].
    + vm_compute in Hs. injection Hs as <-. vm_compute. eauto.
    + vm_compute in Hs. discriminate.
Defined.

(** C5 as stated fails: one record whose latitude is no number empties the
    whole answer.  Ann's record is under a key that matches [user:*] and
    meets the three conditions, and it is not returned. *)
Lemma get_female_users_in_region_bad_latitude :
  let db : database := <["user:1" := Hash ann]> {["user:2" := Hash bea]} in
  db !! "user:1" = Some (Hash ann) ∧
  Redis.glob "user:*" "user:1" = true ∧
  ann !! "gender" = Some "female" ∧
  country_in ["US"] ann = true ∧
  @in_region whole_degrees ["US"] 0 90 ann = true ∧
  returned (@get_female_users_in_region whole_degrees ["US"] 0 90 db) = [].
Proof. cbn zeta. repeat split; vm_compute; reflexivity. Qed.

(** ** The top players *)

#[global] Instance zrev_le_total : Total Redis.zrev_le.
Proof.
  intros [m1 s1] [m2 s2]. unfold Redis.zrev_le. simpl.
  destruct (Z.lt_trichotomy s1 s2) as [?|[->|?]]; [auto..| |auto].
  destruct (total (≤)%string m1 m2); auto.
Qed.

#[global] Instance zrev_le_trans : Transitive Redis.zrev_le.
Proof.
  intros [m1 s1] [m2 s2] [m3 s3]. unfold Redis.zrev_le. simpl.
  intros [?|[-> H12]] [?|[-> H23]]; [left; lia..|].
  right. split; [done|]. by etrans.
Qed.

Lemma by_rank_from_zero {A} (stop : Z) (l : list A) :
  0 ≤ stop → Redis.by_rank 0 stop l = take (Z.to_nat (stop + 1)) l.
Proof.
  intros Hstop. unfold Redis.by_rank. cbn [Z.ltb Z.compare].
  assert ((stop <? 0) = false) as -> by lia. cbn [Z.ltb Z.compare].
  assert ((stop <? 0) = false) as -> by lia. cbn [orb].
  destruct (Z.of_nat (length l) <=? 0) eqn:Hlen.
  - apply Z.leb_le in Hlen.
    destruct l; [by rewrite take_nil|cbn [length] in Hlen; lia].
  - rewrite drop_0. destruct (Z.of_nat (length l) <=? stop) eqn:Hle.
    + apply Z.leb_le in Hle. rewrite !take_ge; [done|lia..].
    + f_equal. lia.
Qed.

Lemma hget_inr (name key : string) (db : database) (v : option string) :
  Redis.hget name key db = inr v → v = attributes_at db name !! key.
Proof.
  unfold Redis.hget, attributes_at.
  destruct (db !! name) as [[h|z]|]; intros [=]; by subst.
Qed.

Lemma email_step_run (emails : list (option string)) (player : string)
    (db : database) :
  email_step emails player db =
    match Redis.hget player "email" db with
    | inl e => Outcome (inl e) db []
    | inr email => Outcome (inr (emails ++ [email])) db []
    end.
Proof.
  unfold email_step, query. rewrite bind_run. cbn [returned store logged].
  by destruct (Redis.hget player "email" db).
Qed.

Lemma by_rank_negative_stop {A} (stop : Z) (l : list A) :
  stop < 0 →
  Redis.by_rank 0 stop l = take (Z.to_nat (Z.of_nat (length l) + stop + 1)) l.
Proof.
  intros Hstop. unfold Redis.by_rank. cbn [Z.ltb Z.compare].
  assert ((stop <? 0) = true) as -> by lia.
  destruct (Z.of_nat (length l) + stop <? 0) eqn:Hneg.
  { cbn [orb]. replace (Z.to_nat _) with 0%nat by lia. by rewrite take_0. }
  cbn [orb]. destruct (Z.of_nat (length l) <=? 0) eqn:Hlen.
  { apply Z.leb_le in Hlen. destruct l; [by rewrite take_nil|].
    cbn [length] in Hlen. lia. }
  assert ((Z.of_nat (length l) <=? Z.of_nat (length l) + stop) = false)
    as -> by lia.
  rewrite drop_0. f_equal. lia.
Qed.

Lemma email_loop_ok (db : database) (players : list string)
    (emails : list (option string)) :
  (∀ player z, player ∈ players → db !! player ≠ Some (ZSet z)) →
  for_each email_step emails players db =
    Outcome (inr (emails ++ ((λ p, attributes_at db p !! "email") <$> players)))
            db [].
Proof.
  revert emails. induction players as [|p players IH]; intros emails Hkind.
  - cbn. by rewrite app_nil_r.
  - rewrite for_each_cons, bind_run, email_step_run.
    destruct (Redis.hget p "email" db) as [e|email] eqn:Hget.
    { unfold Redis.hget in Hget.
      destruct (db !! p) as [[h|z]|] eqn:Hdb; [done| |done].
      destruct (Hkind p z); [apply list_elem_of_here|done]. }
    apply hget_inr in Hget as ->. cbn [returned store logged app].
    rewrite IH;
      [|intros player z Hin; apply Hkind; by apply list_elem_of_further].
    rewrite fmap_cons. by rewrite <- app_assoc.
Qed.

Lemma ranking_members (z : gmap string Z) (member : string) (score : Z) :
  (member, score) ∈ merge_sort Redis.zrev_le (map_to_list z) ↔
  z !! member = Some score.
Proof. by rewrite merge_sort_Permutation, elem_of_map_to_list. Qed.

Lemma ranking_length (z : gmap string Z) :
  length (merge_sort Redis.zrev_le (map_to_list z)) = size z.
Proof. by rewrite merge_sort_Permutation, length_map_to_list. Qed.

(** The answer of [get_top_players] when the leaderboard holds a sorted
    set, the limit fits a 64-bit index and no member's key holds a sorted
    set: the emails of the members in rank order, cut to [limit] entries
    for a limit of at least 1, and with the last [-limit] members left off
    for a limit of 0 or less. *)
Lemma get_top_players_run (leaderboard : string) (limit : Z) (db : database)
    (z : gmap string Z) :
  db !! leaderboard = Some (ZSet z) →
  - 2 ^ 63 < limit ≤ 2 ^ 63 →
  (∀ member score z', z !! member = Some score →
     db !! member ≠ Some (ZSet z')) →
  returned (get_top_players leaderboard limit db) =
    (λ p, attributes_at db p.1 !! "email")
      <$> take (Z.to_nat (if 1 <=? limit then limit
                          else Z.of_nat (size z) + limit))
               (merge_sort Redis.zrev_le (map_to_list z)).
Proof.
  intros Hdb Hlimit Hkind.
  unfold get_top_players, try_except, query, Redis.zrevrange.
  rewrite bind_run. cbn [returned store logged].
  assert (Redis.int64 0 && Redis.int64 (limit - 1) = true) as ->.
  { unfold Redis.int64. apply andb_true_intro. split; [done|].
    apply andb_true_intro. split; lia. }
  cbn [negb]. rewrite Hdb. cbn [returned store logged app].
  assert (Redis.by_rank 0 (limit - 1)
            (merge_sort Redis.zrev_le (map_to_list z))
          = take (Z.to_nat (if 1 <=? limit then limit
                            else Z.of_nat (size z) + limit))
                 (merge_sort Redis.zrev_le (map_to_list z))) as ->.
  { destruct (1 <=? limit) eqn:Hpos.
    - rewrite by_rank_from_zero by lia. f_equal. lia.
    - rewrite by_rank_negative_stop, ranking_length by lia. f_equal. lia. }
  rewrite email_loop_ok.
  - cbn. by rewrite <- list_fmap_compose.
  - intros player z' [[m s] [-> Hin]]%list_elem_of_fmap.
    apply subseteq_take, ranking_members in Hin. by eapply Hkind.
Qed.

(** C2 at a limit of 0, where the code breaks it: the stop index passed to
    [ZREVRANGE] is then -1, which Redis counts from the end, so the call
    returns an entry for every member of the leaderboard, in rank order,
    where the claim, like the docstring of the method (the number of top
    players to retrieve), allows none. *)
Theorem get_top_players_zero_limit (leaderboard : string) (db : database)
    (z : gmap string Z) :
  db !! leaderboard = Some (ZSet z) →
  (∀ member score z', z !! member = Some score →
     db !! member ≠ Some (ZSet z')) →
  returned (get_top_players leaderboard 0 db) =
    (λ p, attributes_at db p.1 !! "email")
      <$> merge_sort Redis.zrev_le (map_to_list z) ∧
  length (returned (get_top_players leaderboard 0 db)) = size z.
Proof.
  intros Hdb Hkind.
  assert (returned (get_top_players leaderboard 0 db) =
            (λ p, attributes_at db p.1 !! "email")
              <$> merge_sort Redis.zrev_le (map_to_list z)) as Hall.
  { rewrite (get_top_players_run _ _ _ z) by (done || lia).
    cbn [Z.leb Z.compare]. rewrite take_ge; [done|].
    rewrite ranking_length. lia. }
  split; [done|]. by rewrite Hall, length_fmap, ranking_length.
Qed.

Lemma get_top_players_zero_limit_witness :
  let z : gmap string Z := <["user:1" := 50]> {["user:2" := 90]} in
  let db : database :=
    <["leaderboard:1" := ZSet z]> {["user:2" := Hash {["email" := "lee@x"]}]} in
  (returned (get_top_players "leaderboard:1" 0 db) =
     (λ p, attributes_at db p.1 !! "email")
       <$> merge_sort Redis.zrev_le (map_to_list z) ∧
   length (returned (get_top_players "leaderboard:1" 0 db)) = size z) ∧
  returned (get_top_players "leaderboard:1" 0 db) = [Some "lee@x"; None] ∧
  ¬ Z.of_nat (length (returned (get_top_players "leaderboard:1" 0 db))) ≤ 0.
Proof.
  cbn zeta. split; [|split].
  - apply get_top_players_zero_limit.
    + vm_compute. reflexivity.
    + intros member score z' Hz.
      destruct (decide (member = "user:1")) as [->|H1]; [by vm_compute|].
      destruct (decide (member = "user:2")) as [->|H2]; [by vm_compute|].
      by rewrite lookup_insert_ne, lookup_singleton_ne in Hz.
  - vm_compute. reflexivity.
  - vm_compute. intros Hle. by apply Hle.
Defined.

(** * Further properties of the client *)

(** ** The queries read and never write *)

Lemma try_except_store {A} (body : action A) (msg : string) (default : A) db :
  store (try_except body (log_and_return msg default) db) = store (body db).
Proof. unfold try_except. by destruct (returned (body db)). Qed.

Lemma email_step_read_only : read_only email_step.
Proof.
  intros emails player db. rewrite email_step_run.
  by destruct (Redis.hget player "email" db).
Qed.

Lemma scan_then_loop_store {A} (body : A → string → action A) (acc : A) db :
  read_only body →
  store ((query (Redis.scan_iter "user:*") ≫= for_each body acc) db) = db.
Proof.
  intros Hro. rewrite bind_run. cbn [query Redis.scan_iter returned store].
  apply for_each_read_only, Hro.
Qed.

(** None of the five queries changes the database, whether it answers or
    fails closed. *)
Theorem queries_never_write `{Float} (db : database) (user_id leaderboard : string)
    (limit : Z) (countries : list string) (min_lat max_lat : float) :
  store (get_user_data user_id db) = db ∧
  store (get_user_coordinates user_id db) = db ∧
  store (get_users_by_even_id db) = db ∧
  store (get_female_users_in_region countries min_lat max_lat db) = db ∧
  store (get_top_players leaderboard limit db) = db.
Proof.
  repeat split.
  - unfold get_user_data. rewrite try_except_store, bind_run. unfold query.
    by destruct (Redis.hgetall user_id db).
  - unfold get_user_coordinates. rewrite try_except_store, bind_run.
    unfold query. cbn [returned store logged].
    destruct (Redis.hget user_id "longitude" db); [done|].
    rewrite bind_run. cbn [returned store logged].
    by destruct (Redis.hget user_id "latitude" db).
  - unfold get_users_by_even_id. rewrite try_except_store.
    apply scan_then_loop_store, even_id_step_read_only.
  - unfold get_female_users_in_region. rewrite try_except_store.
    apply scan_then_loop_store, region_step_read_only.
  - unfold get_top_players. rewrite try_except_store, bind_run. unfold query.
    cbn [returned store logged].
    destruct (Redis.zrevrange leaderboard 0 (limit - 1) db); [done|].
    cbn [store]. apply for_each_read_only, email_step_read_only.
Qed.

(** ** Point lookups *)

(** [get_user_data] returns a mapping exactly when the key holds a hash
    with at least one field, and then it is that hash; a missing key, an
    empty hash and a key holding a sorted set all give [None]. *)
Theorem get_user_data_some (user_id : string) (db : database)
    (h : gmap string string) :
  returned (get_user_data user_id db) = Some h ↔
  db !! user_id = Some (Hash h) ∧ h ≠ ∅.
Proof.
  unfold get_user_data, try_except, query, Redis.hgetall. rewrite bind_run.
  cbn [returned store logged].
  destruct (db !! user_id) as [[h'|z]|]; cbn.
  - destruct (decide (h' = ∅)) as [->|Hne]; split.
    + done.
    + intros [Hh Hne]. by injection Hh as <-.
    + by intros [= ->].
    + intros [Hh _]. by injection Hh as <-.
  - split; [done|]. by intros [Hh _].
  - split; [done|]. by intros [Hh _].
Qed.

Lemma get_user_coordinates_run (user_id : string) (db : database) :
  returned (get_user_coordinates user_id db) =
    match Redis.hget user_id "longitude" db,
          Redis.hget user_id "latitude" db with
    | inr longitude, inr latitude =>
        if truthy longitude && truthy latitude
        then Some (longitude, latitude) else None
    | _, _ => None
    end.
Proof.
  unfold get_user_coordinates, try_except, query. rewrite bind_run.
  cbn [returned store logged].
  destruct (Redis.hget user_id "longitude" db) as [e|longitude]; [done|].
  rewrite bind_run. cbn [returned store logged].
  by destruct (Redis.hget user_id "latitude" db) as [e|latitude].
Qed.

(** [get_user_coordinates] returns a pair exactly when the key holds a
    hash whose [longitude] and [latitude] fields are both present and not
    empty, and then the pair holds those two values, the longitude first;
    a record with only one of them gives [None]. *)
Theorem get_user_coordinates_some (user_id : string) (db : database)
    (longitude latitude : option string) :
  returned (get_user_coordinates user_id db) = Some (longitude, latitude) ↔
  ∃ h lon lat,
    db !! user_id = Some (Hash h) ∧
    h !! "longitude" = Some lon ∧ h !! "latitude" = Some lat ∧
    lon ≠ "" ∧ lat ≠ "" ∧
    longitude = Some lon ∧ latitude = Some lat.
Proof.
  rewrite get_user_coordinates_run. unfold Redis.hget.
  destruct (db !! user_id) as [[h|z]|]; cbn.
  - destruct (h !! "longitude") as [[|c lon]|] eqn:Hlon;
      destruct (h !! "latitude") as [[|c' lat]|] eqn:Hlat; cbn;
      (split; [try done|]).
    all: try (intros (h' & lon' & lat' & Hh & Hlo & Hla & ? & ? & -> & ->);
              injection Hh as <-; rewrite ?Hlon, ?Hlat in *; by simplify_eq).
    intros Heq. simplify_eq.
    exists h, (String c lon), (String c' lat). repeat split; done.
  - split; [done|]. by intros (h' & lon' & lat' & Hh & _).
  - split; [done|]. by intros (h' & lon' & lat' & Hh & _).
Qed.

(** ** Clearing the database *)


(** ** Every even id is found *)

Lemma even_id_loop (db : database) (scan keys : list string)
    (last_names : list (option string)) :
  (∀ key, key ∈ scan → is_Some (id_part key ≫= Py.int)) →
  (∀ key z, key ∈ scan → even_id key = true → db !! key ≠ Some (ZSet z)) →
  for_each even_id_step (keys, last_names) scan db =
    Outcome
      (inr (keys ++ filter (λ key, even_id key = true) scan,
            last_names
              ++ ((λ key, attributes_at db key !! "last_name")
                    <$> filter (λ key, even_id key = true) scan)))
      db [].
Proof.
  revert keys last_names.
  induction scan as [|key scan IH]; intros keys last_names Hint Hkind.
  - cbn. by rewrite !app_nil_r.
  - rewrite for_each_cons, bind_run, even_id_step_run.
    assert (key ∈ key :: scan) as Hhere by apply list_elem_of_here.
    assert (∀ key', key' ∈ scan → is_Some (id_part key' ≫= Py.int)) as Hint'
      by (intros key' Hin; apply Hint; by right).
    assert (∀ key' z, key' ∈ scan → even_id key' = true →
              db !! key' ≠ Some (ZSet z)) as Hkind'
      by (intros key' z Hin; apply Hkind; by right).
    destruct (Hint key Hhere) as [n Hn].
    pose proof (λ z, Hkind key z Hhere) as Hkey. clear Hint Hkind.
    assert (even_id key = (n `mod` 2 =? 0)) as Hev
      by (unfold even_id; by rewrite Hn).
    unfold id_part in Hn.
    destruct (Py.split ":" key !! 1%nat) as [part|]; [|done].
    cbn in Hn. rewrite Hn.
    destruct (n `mod` 2 =? 0) eqn:Heven.
    + destruct (Redis.hget key "last_name" db) as [e|last_name] eqn:Hget.
      { unfold Redis.hget in Hget.
        destruct (db !! key) as [[h|z]|] eqn:Hdb; [done| |done].
        by destruct (Hkey z Hev). }
      apply hget_inr in Hget as ->.
      cbn [returned store logged app]. rewrite IH by done.
      rewrite filter_cons_True by done. rewrite fmap_cons.
      by rewrite <- !app_assoc.
    + cbn [returned store logged app]. rewrite IH by done.
      rewrite filter_cons_False; [done|]. by rewrite Hev.
Qed.

(** When every key under [user:*] carries a number [int] accepts and none
    with an even number holds a sorted set, [get_users_by_even_id] misses
    nothing: it returns every scanned key whose number is even, in the order
    of the scan, each with its [last_name] attribute ([None] when the
    record has none). *)
Theorem get_users_by_even_id_complete (db : database) :
  (∀ key, key ∈ Redis.matching "user:*" db →
     is_Some (id_part key ≫= Py.int)) →
  (∀ key z, key ∈ Redis.matching "user:*" db → even_id key = true →
     db !! key ≠ Some (ZSet z)) →
  returned (get_users_by_even_id db) =
    (filter (λ key, even_id key = true) (Redis.matching "user:*" db),
     (λ key, attributes_at db key !! "last_name")
       <$> filter (λ key, even_id key = true) (Redis.matching "user:*" db)).
Proof.
  intros Hint Hkind. rewrite get_users_by_even_id_run.
  by rewrite (even_id_loop db _ [] []).
Qed.

Lemma get_users_by_even_id_complete_witness :
  let db : database :=
    <["user:2" := Hash {["last_name" := "Lee"]}]>
      (<["user:4" := Hash {["first_name" := "Kim"]}]>
         {["user:3" := Hash {["last_name" := "Roe"]}]}) in
  returned (get_users_by_even_id db) =
    (filter (λ key, even_id key = true) (Redis.matching "user:*" db),
     (λ key, attributes_at db key !! "last_name")
       <$> filter (λ key, even_id key = true) (Redis.matching "user:*" db)).
Proof.
  apply get_users_by_even_id_complete.
  - intros key Hin. vm_compute in Hin.
    repeat (apply elem_of_cons in Hin as [->|Hin]; [vm_compute; eauto|]).
    by apply elem_of_nil in Hin.
  - intros key z Hin _. vm_compute in Hin.
    repeat (apply elem_of_cons in Hin as [->|Hin]; [by vm_compute|]).
    by apply elem_of_nil in Hin.
Defined.

(** ** The region query on any database *)

Section region_soundness.
Context `{Float}.

Lemma region_step_returned countries min_lat max_lat matching_users key db
    matching_users' :
  returned (region_step countries min_lat max_lat matching_users key db)
    = inr matching_users' →
  matching_users' = matching_users ∨
  ∃ h, db !! key = Some (Hash h) ∧
       in_region countries min_lat max_lat h = true ∧
       matching_users' = matching_users ++ [h].
Proof.
  unfold region_step, query, Redis.hgetall. rewrite bind_run.
  cbn [returned store logged].
  destruct (db !! key) as [[h|z]|] eqn:Hdb; cbn [returned store logged];
    [| done |].
  - destruct (bool_decide (h !! "gender" = Some "female")) eqn:Hg;
      [|intros [= <-]; by left].
    destruct (country_in countries h) eqn:Hc; [|intros [= <-]; by left].
    unfold latitude_of. rewrite bind_run.
    destruct (h !! "latitude") as [s|] eqn:Hs.
    + destruct (float_of_str s) as [x|] eqn:Hf; [|done]. cbn.
      destruct (within min_lat max_lat x) eqn:Hin; intros [= <-];
        [right|by left].
      exists h. split; [done|]. split; [|done].
      unfold in_region. by rewrite Hg, Hc, Hs, Hf.
    + cbn. destruct (within min_lat max_lat (float_of_int 0)) eqn:Hin;
        intros [= <-]; [right|by left].
      exists h. split; [done|]. split; [|done].
      unfold in_region. by rewrite Hg, Hc, Hs.
  - rewrite lookup_empty. rewrite bool_decide_eq_false_2 by done.
    intros [= <-]. by left.
Qed.

(** Whatever the database holds, every record [get_female_users_in_region]
    returns is stored under a key that matches [user:*] and meets the three
    conditions: the call never returns a record of another gender, of a
    country outside the list or of a latitude outside the bounds. *)
Theorem get_female_users_in_region_sound
    (countries : list string) (min_lat max_lat : float) (db : database) :
  Forall (λ r, ∃ key, key ∈ Redis.matching "user:*" db ∧
                      db !! key = Some (Hash r) ∧
                      in_region countries min_lat max_lat r = true)
         (returned (get_female_users_in_region countries min_lat max_lat db)).
Proof.
  unfold get_female_users_in_region, try_except. rewrite bind_run.
  cbn [query Redis.scan_iter returned store logged app].
  destruct (returned (for_each _ [] _ db)) as [e|users] eqn:Hrun; cbn;
    [by constructor|].
  revert Hrun. apply for_each_accumulates;
    [apply region_step_read_only| |by constructor].
  intros acc key acc' Hkey Hacc Hstep.
  apply region_step_returned in Hstep as [->|(h & Hdb & Hin & ->)]; [done|].
  apply Forall_app. split; [done|]. apply Forall_singleton. eauto.
Qed.

End region_soundness.

(** ** How many players, and who comes first *)

(** How many entries [get_top_players] returns on a leaderboard of [n]
    members (no key involved holding the wrong kind of value): the smaller
    of [limit] and [n] for a limit of at least 1; for a limit of 0 or less
    it is [n + limit], or none when that is negative, so a limit of 0
    returns an entry for every member. *)
Theorem get_top_players_count (leaderboard : string) (limit : Z)
    (db : database) (z : gmap string Z) :
  db !! leaderboard = Some (ZSet z) →
  - 2 ^ 63 < limit ≤ 2 ^ 63 →
  (∀ member score z', z !! member = Some score →
     db !! member ≠ Some (ZSet z')) →
  Z.of_nat (length (returned (get_top_players leaderboard limit db))) =
    if 1 <=? limit then Z.min limit (Z.of_nat (size z))
    else Z.max 0 (Z.of_nat (size z) + limit).
Proof.
  intros Hdb Hlimit Hkind.
  rewrite (get_top_players_run _ _ _ z) by done.
  rewrite length_fmap, length_take, ranking_length.
  destruct (1 <=? limit) eqn:Hpos; lia.
Qed.

Lemma get_top_players_count_witness :
  let z : gmap string Z := <["user:1" := 50]> {["user:2" := 90]} in
  let db : database :=
    <["leaderboard:1" := ZSet z]> {["user:2" := Hash {["email" := "lee@x"]}]} in
  Z.of_nat (length (returned (get_top_players "leaderboard:1" 0 db))) =
    if 1 <=? 0 then Z.min 0 (Z.of_nat (size z))
    else Z.max 0 (Z.of_nat (size z) + 0).
Proof.
  apply get_top_players_count.
  - vm_compute. reflexivity.
  - lia.
  - intros member score z' Hz.
    destruct (decide (member = "user:1")) as [->|H1]; [by vm_compute|].
    destruct (decide (member = "user:2")) as [->|H2]; [by vm_compute|].
    by rewrite lookup_insert_ne, lookup_singleton_ne in Hz.
Defined.

(** With a limit of 1 the call returns the email of the member whose score
    is strictly the highest. *)
Theorem get_top_players_best (leaderboard member : string) (score : Z)
    (db : database) (z : gmap string Z) :
  db !! leaderboard = Some (ZSet z) →
  z !! member = Some score →
  (∀ member' score', z !! member' = Some score' → member' ≠ member →
     score' < score) →
  (∀ z', db !! member ≠ Some (ZSet z')) →
  returned (get_top_players leaderboard 1 db)
    = [attributes_at db member !! "email"].
Proof.
  intros Hdb Hmember Hbest Hkind.
  unfold get_top_players, try_except, query, Redis.zrevrange.
  rewrite bind_run. cbn [returned store logged].
  change (negb (Redis.int64 0 && Redis.int64 (1 - 1))) with false.
  cbn match. rewrite Hdb. cbn [returned store logged app].
  rewrite by_rank_from_zero by lia. change (Z.to_nat (1 - 1 + 1)) with 1%nat.
  pose proof (StronglySorted_merge_sort Redis.zrev_le (map_to_list z)) as Hsorted.
  pose proof (proj2 (ranking_members z member score) Hmember) as Hin.
  destruct (merge_sort Redis.zrev_le (map_to_list z)) as [|[m s] rest] eqn:Hrank;
    [by apply elem_of_nil in Hin|].
  assert ((m, s) = (member, score)) as [= -> ->].
  { apply elem_of_cons in Hin as [Heq|Hin]; [done|].
    assert (z !! m = Some s) as Hm.
    { apply ranking_members. rewrite Hrank. apply list_elem_of_here. }
    destruct (decide (m = member)) as [->|Hne]; [congruence|].
    pose proof (Hbest m s Hm Hne) as Hlt.
    apply StronglySorted_inv in Hsorted as [_ Hall].
    rewrite Forall_forall in Hall. specialize (Hall _ Hin).
    unfold Redis.zrev_le in Hall. simpl in Hall. lia. }
  replace ((take 1 ((member, score) :: rest)).*1) with [member] by done.
  rewrite for_each_singleton, email_step_run.
  destruct (Redis.hget member "email" db) as [e|email] eqn:Hget.
  { unfold Redis.hget in Hget.
    destruct (db !! member) as [[h|z']|] eqn:Hm; [done| |done].
    by destruct (Hkind z'). }
  apply hget_inr in Hget as ->. done.
Qed.

Lemma get_top_players_best_witness :
  let db : database :=
    <["leaderboard:1" := ZSet (<["user:1" := 50]> {["user:2" := 90]})]>
      {["user:2" := Hash {["email" := "lee@x"]}]} in
  returned (get_top_players "leaderboard:1" 1 db)
    = [attributes_at db "user:2" !! "email"].
Proof.
  apply (get_top_players_best "leaderboard:1" "user:2" 90 _
           (<["user:1" := 50]> {["user:2" := 90]})).
  - vm_compute. reflexivity.
  - vm_compute. reflexivity.
  - intros member' score' Hz Hne.
    destruct (decide (member' = "user:1")) as [->|H1].
    + vm_compute in Hz. injection Hz as <-. lia.
    + by rewrite lookup_insert_ne, lookup_singleton_ne in Hz.
  - intros z'. by vm_compute.
Defined.

(** For a limit of at least 1 the answer is as C2 has it: on a leaderboard
    that holds a sorted set (no member's key holding one), the call
    returns the emails, or [None], of the first [limit] members in the
    order of [ZREVRANGE]; their scores never increase, and there are at
    most [limit] of them. *)
Theorem get_top_players_ranked (leaderboard : string) (limit : Z)
    (db : database) (z : gmap string Z) :
  db !! leaderboard = Some (ZSet z) →
  1 ≤ limit ≤ 2 ^ 63 →
  (∀ member score z', z !! member = Some score →
     db !! member ≠ Some (ZSet z')) →
  let ranked :=
    take (Z.to_nat limit) (merge_sort Redis.zrev_le (map_to_list z)) in
  returned (get_top_players leaderboard limit db)
    = (λ p, attributes_at db p.1 !! "email") <$> ranked ∧
  StronglySorted (λ s s', s' ≤ s) ranked.*2 ∧
  Z.of_nat (length (returned (get_top_players leaderboard limit db))) ≤ limit.
Proof.
  intros Hdb Hlimit Hkind ranked.
  assert (returned (get_top_players leaderboard limit db)
          = (λ p, attributes_at db p.1 !! "email") <$> ranked) as Hrun.
  { rewrite (get_top_players_run _ _ _ z) by (done || lia).
    by assert ((1 <=? limit) = true) as -> by lia. }
  split; [done|]. split.
  - apply (StronglySorted_fmap snd Redis.zrev_le).
    + intros [m1 s1] [m2 s2]. unfold Redis.zrev_le. simpl. lia.
    + apply (StronglySorted_app_1_l _ _
               (drop (Z.to_nat limit)
                  (merge_sort Redis.zrev_le (map_to_list z)))).
      unfold ranked. rewrite take_drop.
      apply StronglySorted_merge_sort; apply _.
  - rewrite Hrun. unfold ranked. rewrite length_fmap, length_take. lia.
Qed.

Lemma get_top_players_ranked_witness :
  let z : gmap string Z :=
    <["user:1" := 50]> (<["user:3" := 70]> {["user:2" := 90]}) in
  let db : database :=
    <["leaderboard:1" := ZSet z]> {["user:2" := Hash {["email" := "lee@x"]}]} in
  let ranked := take (Z.to_nat 2) (merge_sort Redis.zrev_le (map_to_list z)) in
  returned (get_top_players "leaderboard:1" 2 db)
    = (λ p, attributes_at db p.1 !! "email") <$> ranked ∧
  StronglySorted (λ s s', s' ≤ s) ranked.*2 ∧
  Z.of_nat (length (returned (get_top_players "leaderboard:1" 2 db))) ≤ 2.
Proof.
  apply get_top_players_ranked.
  - vm_compute. reflexivity.
  - lia.
  - intros member score z' Hz.
    destruct (decide (member = "user:1")) as [->|H1]; [by vm_compute|].
    destruct (decide (member = "user:3")) as [->|H3]; [by vm_compute|].
    destruct (decide (member = "user:2")) as [->|H2]; [by vm_compute|].
    by rewrite !lookup_insert_ne, lookup_singleton_ne in Hz.
Defined.

(** ** The attribute loader as a whole *)

Lemma union_empty_r {V} (m1 m2 : gmap string V) : m1 ∪ m2 = ∅ → m2 = ∅.
Proof.
  intros Hu. apply map_eq. intros i. rewrite lookup_empty.
  apply (f_equal (.!! i)) in Hu. rewrite lookup_empty in Hu.
  by apply lookup_union_None in Hu as [_ ?].
Qed.

Lemma load_users_line_cases (line : string) (db : database) :
  load_users_line line db =
    if valid_line line
    then match db !! user_id_of line with
         | Some (ZSet _) => Outcome (inl WRONGTYPE) db []
         | _ =>
             Outcome (inr ())
               (<[user_id_of line :=
                    Hash (user_data_of (fields_of line)
                          ∪ attributes_at db (user_id_of line))]> db) []
         end
    else Outcome (inr ()) db [WARNING_line "Skipping invalid line: " line].
Proof.
  unfold valid_line, user_id_of, attributes_at.
  destruct (length (fields_of line) <? 3)%nat eqn:Hlen; cbn [negb].
  - apply load_users_line_invalid. by apply Nat.ltb_lt.
  - apply Nat.ltb_ge in Hlen. rewrite (load_users_line_store line db Hlen).
    destruct (db !! (fields_of line !!! 0%nat)) as [[h|z]|]; [done..|].
    by rewrite (right_id_L ∅ (∪)).
Qed.

Lemma load_users_lines_cons (line : string) (rest : list string) db :
  load_users_lines (line :: rest) db =
    (load_users_line line ≫= λ _, load_users_lines rest) db.
Proof.
  unfold load_users_lines. rewrite for_each_cons, !bind_run.
  by destruct (load_users_line line db) as [[e|[]] db1 w1].
Qed.

Lemma load_users_returned (file : option (list string)) (db : database) :
  returned (load_users file db) = true ↔
  ∃ lines, file = Some lines ∧ returned (load_users_lines lines db) = inr ().
Proof.
  destruct file as [lines|].
  - rewrite load_users_run. cbn zeta.
    destruct (returned (load_users_lines lines db)) as [e|[]] eqn:Hrun; cbn;
      split.
    + done.
    + intros (lines' & Hfile & Hrun'). injection Hfile as <-. congruence.
    + eauto.
    + done.
  - split; [done|]. by intros (lines & Hfile & _).
Qed.

Lemma load_users_store_lines (lines : list string) (db : database) :
  store (load_users (Some lines) db) = store (load_users_lines lines db).
Proof.
  rewrite load_users_run. cbn zeta.
  by destruct (returned (load_users_lines lines db)).
Qed.

Lemma no_clash_cons (line : string) (rest : list string) (db : database) :
  no_clash (line :: rest) db ↔
  (valid_line line = true → ∀ z, db !! user_id_of line ≠ Some (ZSet z)) ∧
  no_clash rest db.
Proof.
  unfold no_clash. split.
  - intros Hall. split.
    + intros Hvalid z. apply Hall; [apply list_elem_of_here|done].
    + intros l z Hin. apply Hall. by apply list_elem_of_further.
  - intros [Hline Hrest] l z [->|Hin]%elem_of_cons Hvalid; [by apply Hline|].
    by apply Hrest.
Qed.

(** Writing a hash at a key that holds no sorted set changes nothing about
    which keys hold which sorted sets. *)
Lemma insert_hash_sorted_sets (db : database) (name key : string)
    (h : gmap string string) (z : gmap string Z) :
  (∀ z', db !! name ≠ Some (ZSet z')) →
  <[name := Hash h]> db !! key = Some (ZSet z) ↔ db !! key = Some (ZSet z).
Proof.
  intros Hname. destruct (decide (name = key)) as [->|Hne].
  - rewrite lookup_insert_eq. split; [done|]. intros Hz. by destruct (Hname z).
  - by rewrite lookup_insert_ne.
Qed.

Lemma no_clash_insert_hash (lines : list string) (db : database)
    (name : string) (h : gmap string string) :
  (∀ z', db !! name ≠ Some (ZSet z')) →
  no_clash lines (<[name := Hash h]> db) ↔ no_clash lines db.
Proof.
  intros Hname. unfold no_clash.
  split; intros Hall line z Hin Hvalid Hz; apply (Hall line z Hin Hvalid);
    by apply (insert_hash_sorted_sets db name _ h z Hname).
Qed.

Lemma load_users_lines_returned (lines : list string) (db : database) :
  returned (load_users_lines lines db) = inr () ↔ no_clash lines db.
Proof.
  revert db. induction lines as [|line rest IH]; intros db.
  - split; [|done]. intros _ line z Hin. by apply elem_of_nil in Hin.
  - rewrite load_users_lines_cons, bind_run, load_users_line_cases, no_clash_cons.
    destruct (valid_line line).
    + destruct (db !! user_id_of line) as [[h|z]|] eqn:Hdb;
        cbn [returned store logged].
      * rewrite IH, no_clash_insert_hash by (rewrite Hdb; done).
        split; [|by intros [_ Hrest]]. intros Hrest. split; [|done].
        by intros _ z.
      * split; [done|]. intros [Hline _]. by destruct (Hline eq_refl z).
      * rewrite IH, no_clash_insert_hash by (rewrite Hdb; done).
        split; [|by intros [_ Hrest]]. intros Hrest. split; [|done].
        by intros _ z.
    + cbn [returned store logged]. rewrite IH.
      split; [|by intros [_ Hrest]]. intros Hrest. by split.
Qed.

Lemma load_users_no_clash (lines : list string) (db : database) :
  returned (load_users (Some lines) db) = true ↔ no_clash lines db.
Proof.
  rewrite load_users_returned, <- load_users_lines_returned. split.
  - by intros (lines' & [= <-] & Hrun).
  - intros Hrun. by exists lines.
Qed.


Lemma load_users_lines_lookup (lines : list string) (db : database)
    (key : string) :
  no_clash lines db →
  store (load_users_lines lines db) !! key =
    match db !! key with
    | Some (ZSet z) => Some (ZSet z)
    | Some (Hash h) => Some (Hash (loaded lines key ∪ h))
    | None =>
        if decide (loaded lines key = ∅) then None
        else Some (Hash (loaded lines key))
    end.
Proof.
  revert db. induction lines as [|line rest IH]; intros db Hclash.
  - cbn. destruct (db !! key) as [[h|z]|]; [|done..].
    by rewrite (left_id_L ∅ (∪)).
  - apply no_clash_cons in Hclash as [Hline Hrest].
    rewrite load_users_lines_cons, bind_run, load_users_line_cases.
    cbn [loaded]. destruct (valid_line line) eqn:Hvalid; cbn [andb].
    + specialize (Hline eq_refl).
      assert (store
                match db !! user_id_of line with
                | Some (ZSet _) => Outcome (inl WRONGTYPE) db []
                | _ =>
                    Outcome (inr ())
                      (<[user_id_of line :=
                           Hash (user_data_of (fields_of line)
                                 ∪ attributes_at db (user_id_of line))]> db) []
                end = <[user_id_of line :=
                           Hash (user_data_of (fields_of line)
                                 ∪ attributes_at db (user_id_of line))]> db
              ∧ returned
                match db !! user_id_of line with
                | Some (ZSet _) => Outcome (inl WRONGTYPE) db []
                | _ =>
                    Outcome (inr ())
                      (<[user_id_of line :=
                           Hash (user_data_of (fields_of line)
                                 ∪ attributes_at db (user_id_of line))]> db) []
                end = inr ()) as [-> ->].
      { destruct (db !! user_id_of line) as [[h|z]|] eqn:Hdb; [done| |done].
        by destruct (Hline z). }
      cbn [store]. rewrite IH by by apply no_clash_insert_hash.
      assert (user_data_of (fields_of line) ≠ ∅) as Hne.
      { apply user_data_of_nonempty. unfold valid_line in Hvalid.
        apply negb_true_iff, Nat.ltb_ge in Hvalid. done. }
      case_bool_decide as Hkey.
      * rewrite <- Hkey. rewrite lookup_insert_eq. unfold attributes_at.
        destruct (db !! user_id_of line) as [[h|z]|] eqn:Hdb.
        -- by rewrite (assoc_L (∪)).
        -- by destruct (Hline z).
        -- rewrite (right_id_L ∅ (∪)). rewrite decide_False; [done|].
           intros Hu. by apply union_empty_r in Hu.
      * rewrite lookup_insert_ne by done. by rewrite (right_id_L ∅ (∪)).
    + cbn [returned store logged]. rewrite IH by done.
      by rewrite (right_id_L ∅ (∪)).
Qed.

(** What a successful load leaves: a key holding a sorted set keeps it; a
    key holding a hash holds it overlaid with the dictionaries of the lines
    that name the key, the later line winning; a missing key that some
    valid line names holds those dictionaries, and any other key stays
    missing. *)
Theorem load_users_store (lines : list string) (db : database)
    (key : string) :
  returned (load_users (Some lines) db) = true →
  store (load_users (Some lines) db) !! key =
    match db !! key with
    | Some (ZSet z) => Some (ZSet z)
    | Some (Hash h) => Some (Hash (loaded lines key ∪ h))
    | None =>
        if decide (loaded lines key = ∅) then None
        else Some (Hash (loaded lines key))
    end.
Proof.
  intros Hclash%load_users_no_clash.
  rewrite load_users_store_lines. by apply load_users_lines_lookup.
Qed.

Lemma load_users_store_witness :
  let lines := [attribute_line ["user:2"; "last_name"; "Lee"];
                "short";
                attribute_line ["user:2"; "last_name"; "Roe"; "age"; "30"]] in
  let db : database := {["user:2" := Hash {["email" := "lee@x"]}]} in
  store (load_users (Some lines) db) !! "user:2" =
    match db !! "user:2" with
    | Some (ZSet z) => Some (ZSet z)
    | Some (Hash h) => Some (Hash (loaded lines "user:2" ∪ h))
    | None =>
        if decide (loaded lines "user:2" = ∅) then None
        else Some (Hash (loaded lines "user:2"))
    end.
Proof. apply load_users_store. vm_compute. reflexivity. Defined.

(** Loading the same file a second time succeeds again and changes
    nothing. *)
Theorem load_users_idempotent (lines : list string) (db : database) :
  returned (load_users (Some lines) db) = true →
  returned (load_users (Some lines) (store (load_users (Some lines) db)))
    = true ∧
  store (load_users (Some lines) (store (load_users (Some lines) db)))
    = store (load_users (Some lines) db).
Proof.
  intros Hclash%load_users_no_clash.
  assert (no_clash lines (store (load_users_lines lines db))) as Hsecond.
  { intros line z Hin Hvalid Hz. apply (Hclash line z Hin Hvalid).
    rewrite load_users_lines_lookup in Hz by done.
    destruct (db !! user_id_of line) as [[h|z']|]; [done|done|].
    by destruct (decide _). }
  rewrite !load_users_store_lines.
  split; [by apply load_users_no_clash|]. apply map_eq. intros key.
  rewrite (load_users_lines_lookup lines (store _) key Hsecond),
    (load_users_lines_lookup lines db key Hclash).
  destruct (db !! key) as [[h|z]|].
  - by rewrite (assoc_L (∪)), (idemp_L (∪)).
  - done.
  - destruct (decide (loaded lines key = ∅)) as [Hempty|Hne].
    + done.
    + by rewrite (idemp_L (∪)).
Qed.

Lemma load_users_idempotent_witness :
  let lines := [attribute_line ["user:2"; "last_name"; "Lee"];
                attribute_line ["user:2"; "last_name"; "Roe"; "age"; "30"]] in
  let db : database := {["user:2" := Hash {["email" := "lee@x"]}]} in
  returned (load_users (Some lines) (store (load_users (Some lines) db)))
    = true ∧
  store (load_users (Some lines) (store (load_users (Some lines) db)))
    = store (load_users (Some lines) db).
Proof. apply load_users_idempotent. vm_compute. reflexivity. Defined.

(** Whether it succeeds or stops on an error, [load_users] leaves alone
    every key that no line of at least three tokens names as its user
    id; an unreadable file changes nothing at all. *)
Theorem load_users_frame (file : option (list string)) (db : database)
    (key : string) :
  (∀ lines line, file = Some lines → line ∈ lines → valid_line line = true →
     user_id_of line ≠ key) →
  store (load_users file db) !! key = db !! key.
Proof.
  intros Hother. destruct file as [lines|]; [|done].
  rewrite load_users_store_lines. unfold load_users_lines.
  apply (for_each_store_invariant (λ d, d !! key = db !! key)); [|done].
  intros [] line d Hin Hd. fold (load_users_line line d).
  rewrite load_users_line_cases.
  destruct (valid_line line) eqn:Hvalid; [|done].
  pose proof (Hother lines line eq_refl Hin Hvalid) as Hne.
  destruct (d !! user_id_of line) as [[h|z]|]; cbn [store];
    [|done|]; by rewrite lookup_insert_ne.
Qed.

Lemma load_users_frame_witness :
  let lines := [attribute_line ["user:2"; "last_name"; "Lee"]; "user:3"] in
  let db : database := {["user:3" := Hash {["email" := "kim@x"]}]} in
  store (load_users (Some lines) db) !! "user:3" = db !! "user:3".
Proof.
  apply load_users_frame.
  intros lines line [= <-] Hin Hvalid.
  apply elem_of_cons in Hin as [->|Hin]; [by vm_compute|].
  apply elem_of_cons in Hin as [->|Hin]; [by vm_compute in Hvalid|].
  by apply elem_of_nil in Hin.
Defined.

(** [load_users] never removes anything, whether it succeeds or stops on
    an error: a key that held a sorted set still holds it unchanged, and a
    key that held a hash still holds a hash with at least the same
    fields. *)
Theorem load_users_never_removes (file : option (list string))
    (db : database) (key : string) :
  (∀ z, db !! key = Some (ZSet z) →
        store (load_users file db) !! key = Some (ZSet z)) ∧
  (∀ h, db !! key = Some (Hash h) →
        ∃ h', store (load_users file db) !! key = Some (Hash h') ∧
              dom h ⊆ dom h').
Proof.
  set (kept := λ d : database,
         (∀ z, db !! key = Some (ZSet z) → d !! key = Some (ZSet z)) ∧
         (∀ h, db !! key = Some (Hash h) →
               ∃ h', d !! key = Some (Hash h') ∧ dom h ⊆ dom h')).
  assert (kept db) as Hdb by (split; eauto).
  destruct file as [lines|]; [|done].
  rewrite load_users_store_lines. unfold load_users_lines.
  apply (for_each_store_invariant kept); [|done].
  intros [] line d Hin [Hz Hh]. fold (load_users_line line d).
  rewrite load_users_line_cases. unfold kept.
  destruct (valid_line line); [|by split].
  destruct (decide (user_id_of line = key)) as [Hkey|Hne].
  - rewrite Hkey. unfold attributes_at.
    destruct (d !! key) as [[h1|z1]|] eqn:Hd; cbn [store];
      [|rewrite Hd; split; [exact Hz|exact Hh]|].
    + split.
      * intros z Hdbz. by specialize (Hz z Hdbz).
      * intros h Hdbh. destruct (Hh h Hdbh) as (h' & [= <-] & Hsub).
        eexists. split; [apply lookup_insert_eq|].
        rewrite dom_union. set_solver.
    + split.
      * intros z Hdbz. by specialize (Hz z Hdbz).
      * intros h Hdbh. by destruct (Hh h Hdbh) as (h' & ? & _).
  - assert (store
              match d !! user_id_of line with
              | Some (ZSet _) => Outcome (inl WRONGTYPE) d []
              | _ =>
                  Outcome (inr ())
                    (<[user_id_of line :=
                         Hash (user_data_of (fields_of line)
                               ∪ attributes_at d (user_id_of line))]> d) []
              end !! key = d !! key) as Hsame.
    { destruct (d !! user_id_of line) as [[h1|z1]|]; cbn [store];
        [|done|]; by rewrite lookup_insert_ne. }
    split.
    + intros z Hdbz. rewrite Hsame. by apply Hz.
    + intros h Hdbh. rewrite Hsame. by apply Hh.
Qed.

(** ** The score loader as a whole *)

Lemma load_scores_row_cases (row : list string) (db : database) :
  load_scores_row row db =
    if valid_row row
    then match Py.int (row !!! 2%nat) with
         | None => Outcome (inl (ValueError (row !!! 2%nat))) db []
         | Some n =>
             match Redis.double n with
             | None => Outcome (inl NotAFloat) db []
             | Some v =>
                 match db !! (row !!! 0%nat) with
                 | Some (Hash _) => Outcome (inl WRONGTYPE) db []
                 | _ =>
                     Outcome (inr ())
                       (<[row !!! 0%nat :=
                            ZSet ({[row !!! 1%nat := v]}
                                  ∪ scores_at db (row !!! 0%nat))]> db) []
                 end
             end
         end
    else Outcome (inr ()) db [WARNING_row "Skipping invalid row: " row].
Proof.
  unfold valid_row.
  destruct (length row <? 3)%nat eqn:Hlen; cbn [negb].
  - unfold load_scores_row. by rewrite Hlen.
  - apply Nat.ltb_ge in Hlen.
    destruct (Py.int (row !!! 2%nat)) as [n|] eqn:Hint;
      [|by apply load_scores_row_bad_score].
    destruct row as [|lb [|member [|score extra]]]; simpl in Hlen; [lia..|].
    change ((lb :: member :: score :: extra) !!! 0%nat) with lb.
    change ((lb :: member :: score :: extra) !!! 1%nat) with member.
    change ((lb :: member :: score :: extra) !!! 2%nat) with score in Hint.
    rewrite (load_scores_row_store _ _ _ _ n) by done. unfold scores_at.
    destruct (Redis.double n) as [v|]; [|done].
    destruct (db !! lb) as [[h|z]|]; [done..|].
    by rewrite (right_id_L ∅ (∪)).
Qed.

Lemma load_scores_rows_cons (row : list string) (rest : list (list string))
    db :
  load_scores_rows (row :: rest) db =
    (load_scores_row row ≫= λ _, load_scores_rows rest) db.
Proof.
  unfold load_scores_rows. rewrite for_each_cons, !bind_run.
  by destruct (load_scores_row row db) as [[e|[]] db1 w1].
Qed.

Lemma load_scores_returned (file : option (list (list string)))
    (db : database) :
  returned (load_scores file db) = true ↔
  ∃ header rows, file = Some (header :: rows) ∧
                 returned (load_scores_rows rows db) = inr ().
Proof.
  destruct file as [[|header rows]|].
  - split; [done|]. by intros (header & rows & Hfile & _).
  - rewrite load_scores_run. cbn zeta.
    destruct (returned (load_scores_rows rows db)) as [e|[]] eqn:Hrun; cbn;
      split.
    + done.
    + intros (header' & rows' & Hfile & Hrun'). injection Hfile as <- <-.
      congruence.
    + eauto.
    + done.
  - split; [done|]. by intros (header & rows & Hfile & _).
Qed.

Lemma writable_cons (row : list string) (rest : list (list string))
    (db : database) :
  writable (row :: rest) db ↔
  (valid_row row = true →
   is_Some (score_of row) ∧
   ∀ h, db !! (row !!! 0%nat) ≠ Some (Hash h)) ∧
  writable rest db.
Proof.
  unfold writable. split.
  - intros Hall. split.
    + apply Hall, list_elem_of_here.
    + intros r Hin. apply Hall. by apply list_elem_of_further.
  - intros [Hrow Hrest] r [->|Hin]%elem_of_cons; [done|]. by apply Hrest.
Qed.

Lemma insert_zset_hashes (db : database) (name key : string)
    (z : gmap string Z) (h : gmap string string) :
  (∀ h', db !! name ≠ Some (Hash h')) →
  <[name := ZSet z]> db !! key = Some (Hash h) ↔ db !! key = Some (Hash h).
Proof.
  intros Hname. destruct (decide (name = key)) as [->|Hne].
  - rewrite lookup_insert_eq. split; [done|]. intros Hh. by destruct (Hname h).
  - by rewrite lookup_insert_ne.
Qed.

Lemma writable_insert_zset (rows : list (list string)) (db : database)
    (name : string) (z : gmap string Z) :
  (∀ h', db !! name ≠ Some (Hash h')) →
  writable rows (<[name := ZSet z]> db) ↔ writable rows db.
Proof.
  intros Hname. unfold writable.
  split; intros Hall row Hin Hvalid;
    destruct (Hall row Hin Hvalid) as [Hint Hkind]; (split; [done|]);
    intros h Hh; apply (Hkind h);
    by apply (insert_zset_hashes db name _ z h Hname).
Qed.

Lemma load_scores_rows_returned (rows : list (list string)) (db : database) :
  returned (load_scores_rows rows db) = inr () ↔ writable rows db.
Proof.
  revert db. induction rows as [|row rest IH]; intros db.
  - split; [|done]. intros _ row Hin. by apply elem_of_nil in Hin.
  - rewrite load_scores_rows_cons, bind_run, load_scores_row_cases,
      writable_cons.
    unfold score_of. destruct (valid_row row).
    + destruct (Py.int (row !!! 2%nat)) as [n|] eqn:Hint; cbn [mbind option_bind].
      * destruct (Redis.double n) as [v|] eqn:Hv.
        -- destruct (db !! (row !!! 0%nat)) as [[h|z]|] eqn:Hdb;
             cbn [returned store logged].
           ++ split; [done|]. intros [Hrow _].
              destruct (Hrow eq_refl) as [_ Hkind]. by destruct (Hkind h).
           ++ rewrite IH, writable_insert_zset by (rewrite Hdb; done).
              split; [|by intros [_ Hrest]]. intros Hrest. split; [|done].
              intros _. split; [by eexists|done].
           ++ rewrite IH, writable_insert_zset by (rewrite Hdb; done).
              split; [|by intros [_ Hrest]]. intros Hrest. split; [|done].
              intros _. split; [by eexists|done].
        -- cbn [returned]. split; [done|]. intros [Hrow _].
           by destruct (Hrow eq_refl) as [[v Hv'] _].
      * cbn [returned]. split; [done|]. intros [Hrow _].
        by destruct (Hrow eq_refl) as [[n Hn] _].
    + cbn [returned store logged]. rewrite IH.
      split; [|by intros [_ Hrest]]. intros Hrest. by split.
Qed.

Lemma load_scores_writable (header : list string)
    (rows : list (list string)) (db : database) :
  returned (load_scores (Some (header :: rows)) db) = true ↔ writable rows db.
Proof.
  rewrite load_scores_returned, <- load_scores_rows_returned. split.
  - by intros (header' & rows' & [= <- <-] & Hrun).
  - intros Hrun. by exists header, rows.
Qed.


Lemma load_scores_rows_lookup (rows : list (list string)) (db : database)
    (key : string) :
  writable rows db →
  store (load_scores_rows rows db) !! key =
    match db !! key with
    | Some (Hash h) => Some (Hash h)
    | Some (ZSet z) => Some (ZSet (scored rows key ∪ z))
    | None =>
        if decide (scored rows key = ∅) then None
        else Some (ZSet (scored rows key))
    end.
Proof.
  revert db. induction rows as [|row rest IH]; intros db Hok.
  - cbn. destruct (db !! key) as [[h|z]|]; [done| |done].
    by rewrite (left_id_L ∅ (∪)).
  - apply writable_cons in Hok as [Hrow Hrest].
    rewrite load_scores_rows_cons, bind_run, load_scores_row_cases.
    cbn [scored]. destruct (valid_row row) eqn:Hvalid; cbn [andb].
    + destruct (Hrow eq_refl) as [[v Hv] Hkind]. unfold entry_of. rewrite Hv.
      unfold score_of in Hv.
      destruct (Py.int (row !!! 2%nat)) as [n|]; [|done].
      cbn [mbind option_bind] in Hv. rewrite Hv.
      assert (load_scores_row_write :
                match db !! (row !!! 0%nat) with
                | Some (Hash _) => Outcome (inl WRONGTYPE) db []
                | _ =>
                    Outcome (inr ())
                      (<[row !!! 0%nat :=
                           ZSet ({[row !!! 1%nat := v]}
                                 ∪ scores_at db (row !!! 0%nat))]> db) []
                end
                = Outcome (inr ())
                    (<[row !!! 0%nat :=
                         ZSet ({[row !!! 1%nat := v]}
                               ∪ scores_at db (row !!! 0%nat))]> db) []).
      { destruct (db !! (row !!! 0%nat)) as [[h|z]|] eqn:Hdb; [|done..].
        by destruct (Hkind h). }
      rewrite load_scores_row_write. cbn [returned store logged].
      rewrite IH by by apply writable_insert_zset.
      case_bool_decide as Hkey.
      * rewrite <- Hkey. rewrite lookup_insert_eq. unfold scores_at.
        destruct (db !! (row !!! 0%nat)) as [[h|z]|] eqn:Hdb.
        -- by destruct (Hkind h).
        -- by rewrite (assoc_L (∪)).
        -- rewrite (right_id_L ∅ (∪)). rewrite decide_False; [done|].
           intros Hu. apply union_empty_r in Hu.
           by apply map_non_empty_singleton in Hu.
      * rewrite lookup_insert_ne by done. by rewrite (right_id_L ∅ (∪)).
    + cbn [returned store logged]. rewrite IH by done.
      by rewrite (right_id_L ∅ (∪)).
Qed.

(** What a successful load of scores leaves: a key holding a hash keeps
    it; a key holding a sorted set holds it overlaid with the entries of
    the rows that name the key as their leaderboard, the later row winning
    and each score being the double nearest to the integer of its row; a
    missing key that some valid row names holds those entries, and any
    other key stays missing. *)
Theorem load_scores_store_lookup (header : list string)
    (rows : list (list string)) (db : database) (key : string) :
  returned (load_scores (Some (header :: rows)) db) = true →
  store (load_scores (Some (header :: rows)) db) !! key =
    match db !! key with
    | Some (Hash h) => Some (Hash h)
    | Some (ZSet z) => Some (ZSet (scored rows key ∪ z))
    | None =>
        if decide (scored rows key = ∅) then None
        else Some (ZSet (scored rows key))
    end.
Proof.
  intros Hok%load_scores_writable.
  rewrite load_scores_store. by apply load_scores_rows_lookup.
Qed.

Lemma load_scores_store_lookup_witness :
  let header := ["leaderboard"; "user"; "score"] in
  let rows := [["leaderboard:1"; "user:2"; "50"]; ["short"];
               ["leaderboard:1"; "user:2"; "90"];
               ["leaderboard:1"; "user:3"; "9007199254740993"]] in
  let db : database := {["leaderboard:1" := ZSet {["user:1" := 10]}]} in
  store (load_scores (Some (header :: rows)) db) !! "leaderboard:1" =
    match db !! "leaderboard:1" with
    | Some (Hash h) => Some (Hash h)
    | Some (ZSet z) => Some (ZSet (scored rows "leaderboard:1" ∪ z))
    | None =>
        if decide (scored rows "leaderboard:1" = ∅) then None
        else Some (ZSet (scored rows "leaderboard:1"))
    end ∧
  scored rows "leaderboard:1"
    = <["user:2" := 90]> {["user:3" := 9007199254740992]}.
Proof.
  split.
  - apply load_scores_store_lookup. vm_compute. reflexivity.
  - vm_compute. reflexivity.
Defined.

(** Loading the same score file a second time succeeds again and changes
    nothing. *)
Theorem load_scores_idempotent (header : list string)
    (rows : list (list string)) (db : database) :
  returned (load_scores (Some (header :: rows)) db) = true →
  returned (load_scores (Some (header :: rows))
              (store (load_scores (Some (header :: rows)) db))) = true ∧
  store (load_scores (Some (header :: rows))
           (store (load_scores (Some (header :: rows)) db)))
    = store (load_scores (Some (header :: rows)) db).
Proof.
  intros Hok%load_scores_writable.
  assert (writable rows (store (load_scores_rows rows db))) as Hsecond.
  { intros row Hin Hvalid. destruct (Hok row Hin Hvalid) as [Hint Hkind].
    split; [done|]. intros h Hh. apply (Hkind h).
    rewrite load_scores_rows_lookup in Hh by done.
    destruct (db !! (row !!! 0%nat)) as [[h'|z]|]; [done|done|].
    by destruct (decide _). }
  rewrite !load_scores_store.
  split; [by apply (load_scores_writable header)|]. apply map_eq. intros key.
  rewrite (load_scores_rows_lookup rows (store _) key Hsecond),
    (load_scores_rows_lookup rows db key Hok).
  destruct (db !! key) as [[h|z]|].
  - done.
  - by rewrite (assoc_L (∪)), (idemp_L (∪)).
  - destruct (decide (scored rows key = ∅)) as [Hempty|Hne].
    + done.
    + by rewrite (idemp_L (∪)).
Qed.

Lemma load_scores_idempotent_witness :
  let header := ["leaderboard"; "user"; "score"] in
  let rows := [["leaderboard:1"; "user:2"; "50"];
               ["leaderboard:1"; "user:2"; "90"]] in
  let db : database := {["leaderboard:1" := ZSet {["user:1" := 10]}]} in
  returned (load_scores (Some (header :: rows))
              (store (load_scores (Some (header :: rows)) db))) = true ∧
  store (load_scores (Some (header :: rows))
           (store (load_scores (Some (header :: rows)) db)))
    = store (load_scores (Some (header :: rows)) db).
Proof. apply load_scores_idempotent. vm_compute. reflexivity. Defined.

(** Whether it succeeds or stops on an error, [load_scores] leaves alone
    every key that no row of at least three fields after the first row
    names as its leaderboard; a file that cannot be read or has no row
    changes nothing at all. *)
Theorem load_scores_frame (file : option (list (list string)))
    (db : database) (key : string) :
  (∀ header rows row, file = Some (header :: rows) → row ∈ rows →
     valid_row row = true → row !!! 0%nat ≠ key) →
  store (load_scores file db) !! key = db !! key.
Proof.
  intros Hother. destruct file as [[|header rows]|]; [done| |done].
  rewrite load_scores_store. unfold load_scores_rows.
  apply (for_each_store_invariant (λ d, d !! key = db !! key)); [|done].
  intros [] row d Hin Hd. fold (load_scores_row row d).
  rewrite load_scores_row_cases.
  destruct (valid_row row) eqn:Hvalid; [|done].
  pose proof (Hother header rows row eq_refl Hin Hvalid) as Hne.
  destruct (Py.int (row !!! 2%nat)) as [n|]; [|done].
  destruct (Redis.double n) as [v|]; [|done].
  destruct (d !! (row !!! 0%nat)) as [[h|z]|]; cbn [store];
    [done| |]; by rewrite lookup_insert_ne.
Qed.

Lemma load_scores_frame_witness :
  let file := Some [["leaderboard"; "user"; "score"];
                    ["leaderboard:1"; "user:2"; "50"]; ["user:2"]] in
  let db : database := {["user:2" := Hash {["email" := "lee@x"]}]} in
  store (load_scores file db) !! "user:2" = db !! "user:2".
Proof.
  apply load_scores_frame.
  intros header rows row [= <- <-] Hin Hvalid.
  apply elem_of_cons in Hin as [->|Hin]; [by vm_compute|].
  apply elem_of_cons in Hin as [->|Hin]; [by vm_compute in Hvalid|].
  by apply elem_of_nil in Hin.
Defined.

(** [load_scores] never touches a user record and never removes a member,
    whether it succeeds or stops on an error: a key that held a hash still
    holds it unchanged, and a key that held a sorted set still holds a
    sorted set with at least the same members. *)
Theorem load_scores_never_removes (file : option (list (list string)))
    (db : database) (key : string) :
  (∀ h, db !! key = Some (Hash h) →
        store (load_scores file db) !! key = Some (Hash h)) ∧
  (∀ z, db !! key = Some (ZSet z) →
        ∃ z', store (load_scores file db) !! key = Some (ZSet z') ∧
              dom z ⊆ dom z').
Proof.
  set (kept := λ d : database,
         (∀ h, db !! key = Some (Hash h) → d !! key = Some (Hash h)) ∧
         (∀ z, db !! key = Some (ZSet z) →
               ∃ z', d !! key = Some (ZSet z') ∧ dom z ⊆ dom z')).
  assert (kept db) as Hdb by (split; eauto).
  destruct file as [[|header rows]|]; [done| |done].
  rewrite load_scores_store. unfold load_scores_rows.
  apply (for_each_store_invariant kept); [|done].
  intros [] row d Hin [Hh Hz]. fold (load_scores_row row d).
  rewrite load_scores_row_cases. unfold kept.
  destruct (valid_row row); [|by split].
  destruct (Py.int (row !!! 2%nat)) as [n|]; [|by split].
  destruct (Redis.double n) as [v|]; [|by split].
  destruct (decide (row !!! 0%nat = key)) as [Hkey|Hne].
  - rewrite Hkey. unfold scores_at.
    destruct (d !! key) as [[h1|z1]|] eqn:Hd; cbn [store];
      [rewrite Hd; split; [exact Hh|exact Hz]| |].
    + split.
      * intros h Hdbh. by specialize (Hh h Hdbh).
      * intros z Hdbz. destruct (Hz z Hdbz) as (z' & [= <-] & Hsub).
        eexists. split; [apply lookup_insert_eq|].
        rewrite dom_union. set_solver.
    + split.
      * intros h Hdbh. by specialize (Hh h Hdbh).
      * intros z Hdbz. by destruct (Hz z Hdbz) as (z' & ? & _).
  - assert (store
              match d !! (row !!! 0%nat) with
              | Some (Hash _) => Outcome (inl WRONGTYPE) d []
              | _ =>
                  Outcome (inr ())
                    (<[row !!! 0%nat :=
                         ZSet ({[row !!! 1%nat := v]}
                               ∪ scores_at d (row !!! 0%nat))]> d) []
              end !! key = d !! key) as Hsame.
    { destruct (d !! (row !!! 0%nat)) as [[h1|z1]|]; cbn [store];
        [done| |]; by rewrite lookup_insert_ne. }
    split.
    + intros h Hdbh. rewrite Hsame. by apply Hh.
    + intros z Hdbz. rewrite Hsame. by apply Hz.
Qed.

(** A row with fewer than three fields is skipped with a warning and
    writes nothing, and the load goes on with the rows after it. *)
Theorem load_scores_skips_short_row
    (header row : list string) (pre post : list (list string))
    (db db1 : database) (w1 : list log_entry) :
  (length row < 3)%nat →
  load_scores_rows pre db = Outcome (inr ()) db1 w1 →
  load_scores_row row db1 =
    Outcome (inr ()) db1 [WARNING_row "Skipping invalid row: " row] ∧
  load_scores (Some (header :: pre ++ row :: post)) db =
    Outcome (returned (load_scores (Some (header :: post)) db1))
            (store (load_scores (Some (header :: post)) db1))
            (w1 ++ WARNING_row "Skipping invalid row: " row
                :: logged (load_scores (Some (header :: post)) db1)).
Proof.
  intros Hlen Hpre.
  assert (load_scores_row row db1 =
            Outcome (inr ()) db1 [WARNING_row "Skipping invalid row: " row])
    as Hrow.
  { rewrite load_scores_row_cases. unfold valid_row.
    apply Nat.ltb_lt in Hlen. by rewrite Hlen. }
  split; [done|].
  rewrite !load_scores_run. unfold load_scores_rows in *.
  rewrite for_each_app, (bind_returned _ _ _ _ _ _ Hpre).
  rewrite for_each_cons, bind_run.
  fold (load_scores_row row db1). rewrite Hrow.
  cbn [returned store logged].
  destruct (for_each _ () post db1) as [[e|[]] db2 w2]; cbn;
    by rewrite <- app_assoc.
Qed.

Lemma load_scores_skips_short_row_witness :
  let header := ["leaderboard"; "user"; "score"] in
  let pre := [["leaderboard:1"; "user:2"; "50"]] in
  let post := [["leaderboard:1"; "user:3"; "70"]] in
  let row := ["leaderboard:1"; "user:9"] in
  let db1 : database := {["leaderboard:1" := ZSet {["user:2" := 50]}]} in
  load_scores_row row db1 =
    Outcome (inr ()) db1 [WARNING_row "Skipping invalid row: " row] ∧
  load_scores (Some (header :: pre ++ row :: post)) ∅ =
    Outcome (returned (load_scores (Some (header :: post)) db1))
            (store (load_scores (Some (header :: post)) db1))
            ([] ++ WARNING_row "Skipping invalid row: " row
                :: logged (load_scores (Some (header :: post)) db1)).
Proof.
  apply load_scores_skips_short_row.
  - cbn [length]. lia.
  - vm_compute. reflexivity.
Defined.

(** A score file that cannot be read, or that has no row at all, makes
    [load_scores] return false with nothing written; a file with only its
    header row loads successfully, also with nothing written. *)
Theorem load_scores_without_rows (header : list string) (db : database) :
  load_scores None db =
    Outcome false db [ERROR "Error loading scores: " OSError] ∧
  load_scores (Some []) db =
    Outcome false db [ERROR "Error loading scores: " StopIteration] ∧
  load_scores (Some [header]) db =
    Outcome true db [INFO "Successfully loaded scores into Redis."].
Proof. done. Qed.

(** ** The tokens of a well-formed line *)

Lemma str_app_cons (c : ascii) (s t : string) :
  String c s +:+ t = String c (s +:+ t).
Proof. reflexivity. Qed.

Lemma str_app_nil_r (s : string) : s +:+ "" = s.
Proof. induction s as [|c s IH]; [done|]. by rewrite str_app_cons, IH. Qed.

Lemma str_app_assoc (s t u : string) : (s +:+ t) +:+ u = s +:+ (t +:+ u).
Proof. induction s as [|c s IH]; [done|]. by rewrite !str_app_cons, IH. Qed.

Lemma rev_app_spec (s acc : string) :
  String.rev_app s acc = String.rev s +:+ acc.
Proof.
  unfold String.rev. revert acc. induction s as [|c s IH]; intros acc; [done|].
  cbn [String.rev_app]. rewrite (IH (String c acc)), (IH (String c "")).
  by rewrite str_app_assoc.
Qed.

Lemma rev_rev_app (t cur : string) :
  String.rev (String.rev_app t cur) = String.rev cur +:+ t.
Proof.
  revert cur. induction t as [|c t IH]; intros cur.
  - by rewrite str_app_nil_r.
  - cbn [String.rev_app]. rewrite IH. unfold String.rev.
    cbn [String.rev_app]. rewrite (rev_app_spec cur (String c "")).
    by rewrite str_app_assoc.
Qed.

Lemma join_quoted (t : string) (ts : list string) :
  join " " (quoted <$> (t :: ts)) = String dquote (quoted_tail t ts).
Proof.
  revert t. induction ts as [|t' ts IH]; intros t.
  - done.
  - change (join " " (quoted <$> (t :: t' :: ts)))
      with (quoted t +:+ " " +:+ join " " (quoted <$> (t' :: ts))).
    rewrite IH. unfold quoted. cbn [quoted_tail].
    by rewrite str_app_cons, str_app_assoc.
Qed.

(** Scanning a token without a quote finds no delimiter in it. *)
Lemma split_go_token (t cur rest : string) :
  quote_free t = true →
  Py.split_go delimiter 0 cur (t +:+ rest)
  = Py.split_go delimiter 0 (String.rev_app t cur) rest.
Proof.
  revert cur. induction t as [|c t IH]; intros cur Hfree; [done|].
  cbn [quote_free] in Hfree. apply andb_true_iff in Hfree as [Hc Hfree].
  apply negb_true_iff, bool_decide_eq_false in Hc.
  rewrite str_app_cons. cbn [Py.split_go String.rev_app].
  assert (Py.startswith delimiter (String c (t +:+ rest)) = false) as ->.
  { unfold delimiter. cbn [Py.startswith].
    rewrite bool_decide_eq_false_2; [done|]. by intros <-. }
  by apply IH.
Qed.

Lemma split_go_tail (t : string) (ts : list string) (cur : string) :
  quote_free t = true →
  Py.split_go delimiter 0 cur (quoted_tail t ts) =
    match ts with
    | [] => [String.rev cur +:+ t +:+ String dquote ""]
    | t' :: ts' =>
        (String.rev cur +:+ t)
          :: Py.split_go delimiter 0 "" (quoted_tail t' ts')
    end.
Proof.
  intros Hfree.
  destruct ts as [|t' ts']; cbn [quoted_tail]; rewrite split_go_token by done.
  - cbn. rewrite andb_false_r, rev_app_spec.
    by rewrite rev_rev_app, str_app_assoc.
  - cbn. rewrite bool_decide_eq_true_2 by done. cbn.
    by rewrite rev_rev_app.
Qed.

Lemma rstrip_keep (p : ascii → bool) (t : string) :
  (∀ c, c ∈ list_ascii_of_string t → p c = false) → Py.rstrip p t = t.
Proof.
  induction t as [|c t IH]; intros Hp; [done|]. cbn [Py.rstrip].
  rewrite IH by (intros c' Hc'; apply Hp; by right).
  destruct t; [|done]. rewrite Hp; [done|]. by left.
Qed.

Lemma rstrip_snoc_drop (p : ascii → bool) (t : string) (c : ascii) :
  p c = true →
  Py.rstrip p (t +:+ String c "") = Py.rstrip p t.
Proof.
  intros Hc. induction t as [|c' t IH].
  - change (Py.rstrip p (String c "") = Py.rstrip p ""). cbn. by rewrite Hc.
  - rewrite str_app_cons. cbn [Py.rstrip]. by rewrite IH.
Qed.

Lemma lstrip_keep (p : ascii → bool) (t : string) :
  (∀ c, c ∈ list_ascii_of_string t → p c = false) → Py.lstrip p t = t.
Proof.
  destruct t as [|c t]; intros Hp; [done|]. cbn [Py.lstrip].
  rewrite Hp; [done|]. by left.
Qed.

Lemma quote_free_chars (t : string) (c : ascii) :
  quote_free t = true → c ∈ list_ascii_of_string t →
  bool_decide (c ∈ list_ascii_of_string (String dquote "")) = false.
Proof.
  intros Hfree Hin. apply bool_decide_eq_false. intros Hq.
  assert (c = dquote) as Hc
    by (cbn in Hq; by apply list_elem_of_singleton in Hq).
  subst c. clear Hq.
  induction t as [|c t IH]; [by apply elem_of_nil in Hin|].
  cbn [quote_free] in Hfree. apply andb_true_iff in Hfree as [Hc Hfree].
  apply negb_true_iff, bool_decide_eq_false in Hc.
  cbn in Hin. apply elem_of_cons in Hin as [<-|Hin]; [done|]. by apply IH.
Qed.

(** Stripping the quotes gives back a token without a quote, whether the
    piece carries the opening quote, the closing quote, both or none. *)
Lemma strip_chars_token (t : string) (opening closing : bool) :
  quote_free t = true →
  Py.strip_chars (String dquote "")
    ((if opening then String dquote "" else "")
       +:+ t +:+ (if closing then String dquote "" else "")) = t.
Proof.
  intros Hfree. unfold Py.strip_chars.
  set (p := λ c, bool_decide (c ∈ list_ascii_of_string (String dquote ""))).
  assert (∀ c, c ∈ list_ascii_of_string t → p c = false) as Hp
    by (intros c; by apply quote_free_chars).
  assert (p dquote = true) as Hq by done.
  assert (Py.lstrip p ((if opening then String dquote "" else "")
                         +:+ t +:+ (if closing then String dquote "" else ""))
          = Py.lstrip p (t +:+ (if closing then String dquote "" else "")))
    as ->.
  { destruct opening; [|done]. rewrite str_app_cons. cbn [Py.lstrip].
    by rewrite Hq. }
  destruct t as [|c t].
  - destruct closing; [|done].
    change (Py.rstrip p (Py.lstrip p (String dquote "")) = "").
    cbn [Py.lstrip]. by rewrite Hq.
  - rewrite str_app_cons. cbn [Py.lstrip]. rewrite (Hp c) by by left.
    rewrite <- str_app_cons. destruct closing.
    + rewrite rstrip_snoc_drop by done. by apply rstrip_keep.
    + rewrite str_app_nil_r. by apply rstrip_keep.
Qed.

Lemma fields_of_tail (t : string) (ts : list string) :
  Forall (λ t, quote_free t = true) (t :: ts) →
  Py.strip_chars (String dquote "")
    <$> Py.split_go delimiter 0 "" (quoted_tail t ts) = t :: ts.
Proof.
  revert t. induction ts as [|t' ts IH]; intros t Hfree;
    apply Forall_cons in Hfree as [Ht Hfree]; rewrite split_go_tail by done.
  - cbn [fmap list_fmap]. f_equal.
    apply (strip_chars_token t false true Ht).
  - rewrite fmap_cons, IH by done. f_equal.
    pose proof (strip_chars_token t false false Ht) as Hstrip.
    by rewrite str_app_nil_r in Hstrip.
Qed.

Lemma quoted_tail_unfold (t : string) (ts : list string) :
  quoted_tail t ts =
    t +:+ String dquote
            match ts with
            | [] => ""
            | t' :: ts' => String " " (String dquote (quoted_tail t' ts'))
            end.
Proof. by destruct ts. Qed.

Lemma quoted_tail_end (t : string) (ts : list string) :
  ∃ body, quoted_tail t ts = body +:+ String dquote "".
Proof.
  revert t. induction ts as [|t' ts IH]; intros t.
  - by exists t.
  - destruct (IH t') as [body Hbody]. cbn [quoted_tail]. rewrite Hbody.
    exists (t +:+ String dquote (String " " (String dquote body))).
    by rewrite str_app_assoc.
Qed.

Lemma rstrip_snoc_keep (p : ascii → bool) (s : string) (c : ascii) :
  p c = false → Py.rstrip p (s +:+ String c "") = s +:+ String c "".
Proof.
  intros Hc. induction s as [|c' s IH].
  - change (Py.rstrip p (String c "") = String c ""). cbn. by rewrite Hc.
  - rewrite str_app_cons. cbn [Py.rstrip]. rewrite IH.
    by destruct s.
Qed.

(** The round trip of the attribute format: a line written as one or more
    tokens, each in double quotes and separated by single spaces, is read
    back as exactly those tokens, provided no token holds a double quote
    and the first token is not a single space. *)
Theorem fields_of_attribute_line (t : string) (ts : list string) :
  Forall (λ t, quote_free t = true) (t :: ts) →
  t ≠ " " →
  fields_of (attribute_line (t :: ts)) = t :: ts.
Proof.
  intros Hfree Hfirst. unfold fields_of, attribute_line.
  rewrite join_quoted.
  assert (Py.strip (String dquote (quoted_tail t ts) +:+ String "010" "")
          = String dquote (quoted_tail t ts)) as ->.
  { unfold Py.strip. rewrite str_app_cons.
    change (Py.lstrip Py.isspace
              (String dquote (quoted_tail t ts +:+ String "010" "")))
      with (String dquote (quoted_tail t ts +:+ String "010" "")).
    rewrite <- str_app_cons, rstrip_snoc_drop by done.
    destruct (quoted_tail_end t ts) as [body ->].
    rewrite <- str_app_cons. by apply rstrip_snoc_keep. }
  unfold Py.split. cbn [Py.split_go].
  assert (Py.startswith delimiter (String dquote (quoted_tail t ts)) = false)
    as ->.
  { pose proof Hfree as [Ht _]%Forall_cons.
    rewrite quoted_tail_unfold. unfold delimiter. cbn [Py.startswith].
    rewrite bool_decide_eq_true_2 by done. cbn [andb].
    destruct t as [|c [|c' t']].
    - change ("" +:+ ?s) with s. cbn [Py.startswith].
      by rewrite bool_decide_eq_false_2.
    - rewrite str_app_cons. cbn [Py.startswith].
      rewrite bool_decide_eq_false_2; [done|]. by intros <-.
    - rewrite !str_app_cons. cbn [Py.startswith].
      cbn [quote_free] in Ht.
      apply andb_true_iff in Ht as [_ [Hc' _]%andb_true_iff].
      apply negb_true_iff, bool_decide_eq_false in Hc'.
      destruct (bool_decide (" "%char = c)); [|done]. cbn [andb].
      rewrite bool_decide_eq_false_2; [done|]. by intros <-. }
  rewrite split_go_tail by by apply Forall_cons in Hfree as [? _].
  apply Forall_cons in Hfree as [Ht Hfree].
  destruct ts as [|t' ts'].
  - cbn [fmap list_fmap]. f_equal.
    apply (strip_chars_token t true true Ht).
  - rewrite fmap_cons, fields_of_tail by done. f_equal.
    pose proof (strip_chars_token t true false Ht) as Hstrip.
    by rewrite str_app_nil_r in Hstrip.
Qed.

Lemma fields_of_attribute_line_witness :
  fields_of (attribute_line ["user:1"; "first name"; " "; ""])
  = ["user:1"; "first name"; " "; ""].
Proof.
  apply fields_of_attribute_line.
  - repeat constructor.
  - discriminate.
Defined.
